(** * chess_rating_system.py: the rating engine, embedded and verified

    The development follows [ChessRatingSystem] of
    [src/chess_rating_system.py]: the parsing of a game line, the three
    rating updates (ELO, simplified Glicko-2, USCF-style ELO) and the
    per-game bookkeeping.  The HTML report is not modelled.

    Conventions of the embedding:
    - a Python [int] is a [Z]; a Python [float] is an IEEE-754 binary64
      number, [PrimFloat.float];
    - a Python [str] is a [string]; its characters are the code points
      0..255;
    - a Python exception is a value of [exn], carried by the result type
      [res];
    - [self.players] is a [gmap string player]; a Python reference to a
      player dictionary is the player's key, so that two references to the
      same dictionary are two uses of the same key;
    - the two functions of the platform's C library reached by the program,
      [pow] and [exp], are not fixed by any standard beyond a few special
      values: they are variables of the section that contains the engine. *)

From Stdlib Require Import ZArith Floats String Ascii DecimalString Sorted.
From stdpp Require Import gmap strings list.

Set Warnings "-inexact-float".

Local Open Scope string_scope.
Local Open Scope Z_scope.
Local Open Scope list_scope.

(** ** Exceptions and results *)

Inductive exn : Set :=
  | ZeroDivisionError
  | OverflowError
  | ValueError
  | IndexError.

Inductive res (A : Type) : Type :=
  | Ok (a : A)
  | Raise (e : exn).
Arguments Ok {A} a.
Arguments Raise {A} e.

#[global] Instance res_ret : MRet res := fun A a => Ok a.
#[global] Instance res_bind : MBind res := fun A B f m =>
  match m with
  | Ok a => f a
  | Raise e => Raise e
  end.

(** ** Strings *)

(** [str.isspace] on one character (code points below 256). *)
Definition isspace (c : ascii) : bool :=
  let n := N_of_ascii c in
  ((9 <=? n) && (n <=? 13) || (28 <=? n) && (n <=? 32)
   || (n =? 133) || (n =? 160))%N.

(** The characters [str.isdigit] accepts below 256: the ten decimal digits and
    the superscripts two, three and one. *)
Definition isdigit_char (c : ascii) : bool :=
  let n := N_of_ascii c in
  ((48 <=? n) && (n <=? 57) || (n =? 178) || (n =? 179) || (n =? 185))%N.

(** The characters [int] reads as decimal digits below 256. *)
Definition isdecimal_char (c : ascii) : bool :=
  let n := N_of_ascii c in ((48 <=? n) && (n <=? 57))%N.

Definition decimal_value (c : ascii) : Z := Z.of_N (N_of_ascii c) - 48.

Definition is_empty (s : string) : bool :=
  match s with
  | EmptyString => true
  | String _ _ => false
  end.

Fixpoint lstrip (s : string) : string :=
  match s with
  | EmptyString => EmptyString
  | String c s' => if isspace c then lstrip s' else s
  end.

Fixpoint rstrip (s : string) : string :=
  match s with
  | EmptyString => EmptyString
  | String c s' =>
      let r := rstrip s' in
      if is_empty r && isspace c then EmptyString else String c r
  end.

(** [s.strip()] *)
Definition strip (s : string) : string := rstrip (lstrip s).

(** [s.split()]: the maximal runs of characters that are not whitespace.
    [w] is the run being read. *)
Fixpoint split_go (w : string) (s : string) : list string :=
  match s with
  | EmptyString => if is_empty w then [] else [w]
  | String c s' =>
      if isspace c
      then (if is_empty w then split_go EmptyString s'
            else w :: split_go EmptyString s')
      else split_go (w +:+ String c EmptyString) s'
  end.

Definition split (s : string) : list string := split_go EmptyString s.

(** [s.rsplit(' ', 1)]: [Some (a, b)] for the two-element list [[a, b]] cut at
    the last space, [None] for the one-element list [[s]]. *)
Fixpoint rsplit_space (s : string) : option (string * string) :=
  match s with
  | EmptyString => None
  | String c s' =>
      match rsplit_space s' with
      | Some (a, b) => Some (String c a, b)
      | None => if Ascii.eqb c " " then Some (EmptyString, s') else None
      end
  end.

Fixpoint drop_chars (n : nat) (s : string) : string :=
  match n, s with
  | O, _ => s
  | S n', String _ s' => drop_chars n' s'
  | S _, EmptyString => EmptyString
  end.

(** [s.split(sep, 1)] for a non-empty [sep]: [Some (a, b)] cut at the first
    occurrence of [sep]; [None] when [sep not in s]. *)
Fixpoint split_first (sep s : string) : option (string * string) :=
  if String.prefix sep s
  then Some (EmptyString, drop_chars (String.length sep) s)
  else match s with
       | EmptyString => None
       | String c s' =>
           match split_first sep s' with
           | Some (a, b) => Some (String c a, b)
           | None => None
           end
       end.

Fixpoint all_chars (p : ascii -> bool) (s : string) : bool :=
  match s with
  | EmptyString => true
  | String c s' => p c && all_chars p s'
  end.

(** [s.isdigit()] *)
Definition isdigit (s : string) : bool :=
  negb (is_empty s) && all_chars isdigit_char s.

(** [' '.join(parts)] *)
Definition join_space (parts : list string) : string := String.concat " " parts.

(** The digits of an integer literal after its first digit: single
    underscores may separate digits.  [us] tells that the previous character
    was an underscore. *)
Fixpoint int_digits (acc : Z) (us : bool) (s : string) : res Z :=
  match s with
  | EmptyString => if us then Raise ValueError else Ok acc
  | String c s' =>
      if isdecimal_char c then int_digits (10 * acc + decimal_value c) false s'
      else if Ascii.eqb c "_" && negb us then int_digits acc true s'
      else Raise ValueError
  end.

Definition int_unsigned (s : string) : res Z :=
  match s with
  | EmptyString => Raise ValueError
  | String c s' =>
      if isdecimal_char c then int_digits (decimal_value c) false s'
      else Raise ValueError
  end.

(** The characters [int] skips around a literal.  [int] first turns the
    whitespace characters above 127 into spaces and then skips what C calls
    whitespace, so below 256 these are the tab to the carriage return, the
    space, and the code points 133 and 160; the separators 28 to 31, which
    [str.strip] removes, are not among them. *)
Definition isspace_int (c : ascii) : bool :=
  let n := N_of_ascii c in
  ((9 <=? n) && (n <=? 13) || (n =? 32) || (n =? 133) || (n =? 160))%N.

Fixpoint lstrip_int (s : string) : string :=
  match s with
  | EmptyString => EmptyString
  | String c s' => if isspace_int c then lstrip_int s' else s
  end.

Fixpoint rstrip_int (s : string) : string :=
  match s with
  | EmptyString => EmptyString
  | String c s' =>
      let r := rstrip_int s' in
      if is_empty r && isspace_int c then EmptyString else String c r
  end.

(** [int(s)] for a string [s]: surrounding whitespace, an optional sign,
    decimal digits. *)
Definition py_int (s : string) : res Z :=
  match rstrip_int (lstrip_int s) with
  | String "+" s' => int_unsigned s'
  | String "-" s' => z ← int_unsigned s'; Ok (- z)
  | s' => int_unsigned s'
  end.

(** [str(z)] for an integer [z], as an f-string renders it. *)
Definition str_of_int (z : Z) : string := NilZero.string_of_int (Z.to_int z).

(** [l[i]] on a list, with Python's negative indices. *)
Definition list_index {A} (l : list A) (i : Z) : res A :=
  let n := Z.of_nat (length l) in
  let j := if i <? 0 then i + n else i in
  if (j <? 0) || (n <=? j) then Raise IndexError
  else match l !! Z.to_nat j with
       | Some a => Ok a
       | None => Raise IndexError
       end.

(** Statement [try: body except (ValueError, IndexError): return None]. *)
Definition except_value_index {A} (body : res (option A)) : res (option A) :=
  match body with
  | Raise ValueError | Raise IndexError => Ok None
  | r => r
  end.

(** ** Floating point *)

(** [float(z)] for an integer: rounded to nearest, ties to even;
    [OverflowError] beyond the largest double. *)
Definition float_of_int (z : Z) : res float :=
  let f := SF2Prim (binary_normalize prec emax z 0 false) in
  if is_infinity f then Raise OverflowError else Ok f.

Definition SF_of_int (z : Z) : spec_float :=
  match z with
  | Z0 => S754_zero false
  | Zpos p => S754_finite false p 0
  | Zneg p => S754_finite true p 0
  end.

(** [a / b] on two integers: the correctly rounded quotient. *)
Definition int_truediv (a b : Z) : res float :=
  if b =? 0 then Raise ZeroDivisionError
  else match SFdiv prec emax (SF_of_int a) (SF_of_int b) with
       | S754_infinity _ => Raise OverflowError
       | q => Ok (SF2Prim q)
       end.

(** [x / y] on two floats. *)
Definition float_div (x y : float) : res float :=
  if is_zero y then Raise ZeroDivisionError else Ok (x / y)%float.

(** [math.sqrt(x)] *)
Definition math_sqrt (x : float) : res float :=
  if is_nan x then Ok x
  else if (x <? 0)%float then Raise ValueError
  else Ok (PrimFloat.sqrt x).

(** [math.pi] *)
Definition math_pi : float := 0x1.921fb54442d18p+1%float.

(** [min(a, b)]: the first argument unless the second is smaller. *)
Definition py_min (a b : float) : float := if (b <? a)%float then b else a.

(** The integer nearest to [m * 2^e] for [m >= 0], ties to even. *)
Definition round_half_even (m e : Z) : Z :=
  if 0 <=? e then m * 2 ^ e
  else
    let d := 2 ^ (- e) in
    let q := m / d in
    let r := m mod d in
    if 2 * r <? d then q
    else if d <? 2 * r then q + 1
    else if Z.even q then q else q + 1.

(** [round(x)] for a float: an integer. *)
Definition py_round (x : float) : res Z :=
  match Prim2SF x with
  | S754_zero _ => Ok 0
  | S754_infinity _ => Raise OverflowError
  | S754_nan => Raise ValueError
  | S754_finite s m e =>
      let n := round_half_even (Zpos m) e in
      Ok (if s then - n else n)
  end.

(** [round(x, ndigits)] for a float and [0 <= ndigits]: the double nearest to
    the decimal with [ndigits] places nearest to [x] (ties to even both
    times); zeros, infinities and NaN round to themselves. *)
Definition py_round_ndigits (x : float) (ndigits : Z) : float :=
  match Prim2SF x with
  | S754_finite s m e =>
      let n := round_half_even (Zpos m * 10 ^ ndigits) e in
      match n with
      | Zpos p =>
          SF2Prim (SFdiv prec emax (S754_finite s p 0)
                                   (SF_of_int (10 ^ ndigits)))
      | _ => if s then PrimFloat.neg_zero else PrimFloat.zero
      end
  | _ => x
  end.

(** ** Data model *)

(** One head-to-head tally, [{'games': .., 'wins': .., 'draws': ..,
    'losses': ..}]. *)
Module Tally.

Record t : Type := mk {
  games : Z;
  wins : Z;
  draws : Z;
  losses : Z
}.

Definition set_games (f : Z -> Z) (x : t) : t :=
  mk (f (games x)) (wins x) (draws x) (losses x).

Definition set_wins (f : Z -> Z) (x : t) : t :=
  mk (games x) (f (wins x)) (draws x) (losses x).

Definition set_draws (f : Z -> Z) (x : t) : t :=
  mk (games x) (wins x) (f (draws x)) (losses x).

Definition set_losses (f : Z -> Z) (x : t) : t :=
  mk (games x) (wins x) (draws x) (f (losses x)).

End Tally.

(** One entry of [biggest_wins] or [biggest_upsets]. *)
Module Notable.

Record t : Type := mk {
  opponent : string;
  rating_diff : Z;
  own_rating : Z;
  opponent_rating : Z;
  game_number : Z;
  date : option string;
  result : string
}.

End Notable.

(** One entry of [rating_history]. *)
Module History.

Record t : Type := mk {
  game : Z;
  date : option string;
  elo : Z;
  glicko2 : Z;
  uscf : Z
}.

End History.

(** A player dictionary.  [rating_history] is [None] while the key is absent
    from the dictionary. *)
Module Player.

Record t : Type := mk {
  name : string;
  rating : Z;
  glicko_rating : Z;
  glicko_deviation : float;
  glicko_volatility : float;
  uscf_rating : Z;
  uscf_games : Z;
  games : Z;
  wins : Z;
  draws : Z;
  losses : Z;
  opponents : gmap string Tally.t;
  biggest_wins : list Notable.t;
  biggest_upsets : list Notable.t;
  highest_elo : Z;
  lowest_elo : Z;
  highest_glicko : Z;
  lowest_glicko : Z;
  highest_uscf : Z;
  lowest_uscf : Z;
  rating_history : option (list History.t)
}.

Definition set_rating (f : Z -> Z) (p : t) : t :=
  mk (name p) (f (rating p)) (glicko_rating p) (glicko_deviation p)
     (glicko_volatility p) (uscf_rating p) (uscf_games p) (games p) (wins p)
     (draws p) (losses p) (opponents p) (biggest_wins p) (biggest_upsets p)
     (highest_elo p) (lowest_elo p) (highest_glicko p) (lowest_glicko p)
     (highest_uscf p) (lowest_uscf p) (rating_history p).

Definition set_glicko_rating (f : Z -> Z) (p : t) : t :=
  mk (name p) (rating p) (f (glicko_rating p)) (glicko_deviation p)
     (glicko_volatility p) (uscf_rating p) (uscf_games p) (games p) (wins p)
     (draws p) (losses p) (opponents p) (biggest_wins p) (biggest_upsets p)
     (highest_elo p) (lowest_elo p) (highest_glicko p) (lowest_glicko p)
     (highest_uscf p) (lowest_uscf p) (rating_history p).

Definition set_glicko_deviation (f : float -> float) (p : t) : t :=
  mk (name p) (rating p) (glicko_rating p) (f (glicko_deviation p))
     (glicko_volatility p) (uscf_rating p) (uscf_games p) (games p) (wins p)
     (draws p) (losses p) (opponents p) (biggest_wins p) (biggest_upsets p)
     (highest_elo p) (lowest_elo p) (highest_glicko p) (lowest_glicko p)
     (highest_uscf p) (lowest_uscf p) (rating_history p).

Definition set_glicko_volatility (f : float -> float) (p : t) : t :=
  mk (name p) (rating p) (glicko_rating p) (glicko_deviation p)
     (f (glicko_volatility p)) (uscf_rating p) (uscf_games p) (games p)
     (wins p) (draws p) (losses p) (opponents p) (biggest_wins p)
     (biggest_upsets p) (highest_elo p) (lowest_elo p) (highest_glicko p)
     (lowest_glicko p) (highest_uscf p) (lowest_uscf p) (rating_history p).

Definition set_uscf_rating (f : Z -> Z) (p : t) : t :=
  mk (name p) (rating p) (glicko_rating p) (glicko_deviation p)
     (glicko_volatility p) (f (uscf_rating p)) (uscf_games p) (games p)
     (wins p) (draws p) (losses p) (opponents p) (biggest_wins p)
     (biggest_upsets p) (highest_elo p) (lowest_elo p) (highest_glicko p)
     (lowest_glicko p) (highest_uscf p) (lowest_uscf p) (rating_history p).

Definition set_uscf_games (f : Z -> Z) (p : t) : t :=
  mk (name p) (rating p) (glicko_rating p) (glicko_deviation p)
     (glicko_volatility p) (uscf_rating p) (f (uscf_games p)) (games p)
     (wins p) (draws p) (losses p) (opponents p) (biggest_wins p)
     (biggest_upsets p) (highest_elo p) (lowest_elo p) (highest_glicko p)
     (lowest_glicko p) (highest_uscf p) (lowest_uscf p) (rating_history p).

Definition set_games (f : Z -> Z) (p : t) : t :=
  mk (name p) (rating p) (glicko_rating p) (glicko_deviation p)
     (glicko_volatility p) (uscf_rating p) (uscf_games p) (f (games p))
     (wins p) (draws p) (losses p) (opponents p) (biggest_wins p)
     (biggest_upsets p) (highest_elo p) (lowest_elo p) (highest_glicko p)
     (lowest_glicko p) (highest_uscf p) (lowest_uscf p) (rating_history p).

Definition set_wins (f : Z -> Z) (p : t) : t :=
  mk (name p) (rating p) (glicko_rating p) (glicko_deviation p)
     (glicko_volatility p) (uscf_rating p) (uscf_games p) (games p)
     (f (wins p)) (draws p) (losses p) (opponents p) (biggest_wins p)
     (biggest_upsets p) (highest_elo p) (lowest_elo p) (highest_glicko p)
     (lowest_glicko p) (highest_uscf p) (lowest_uscf p) (rating_history p).

Definition set_draws (f : Z -> Z) (p : t) : t :=
  mk (name p) (rating p) (glicko_rating p) (glicko_deviation p)
     (glicko_volatility p) (uscf_rating p) (uscf_games p) (games p) (wins p)
     (f (draws p)) (losses p) (opponents p) (biggest_wins p)
     (biggest_upsets p) (highest_elo p) (lowest_elo p) (highest_glicko p)
     (lowest_glicko p) (highest_uscf p) (lowest_uscf p) (rating_history p).

Definition set_losses (f : Z -> Z) (p : t) : t :=
  mk (name p) (rating p) (glicko_rating p) (glicko_deviation p)
     (glicko_volatility p) (uscf_rating p) (uscf_games p) (games p) (wins p)
     (draws p) (f (losses p)) (opponents p) (biggest_wins p)
     (biggest_upsets p) (highest_elo p) (lowest_elo p) (highest_glicko p)
     (lowest_glicko p) (highest_uscf p) (lowest_uscf p) (rating_history p).

Definition set_opponents (f : gmap string Tally.t -> gmap string Tally.t) (p : t) : t :=
  mk (name p) (rating p) (glicko_rating p) (glicko_deviation p)
     (glicko_volatility p) (uscf_rating p) (uscf_games p) (games p) (wins p)
     (draws p) (losses p) (f (opponents p)) (biggest_wins p)
     (biggest_upsets p) (highest_elo p) (lowest_elo p) (highest_glicko p)
     (lowest_glicko p) (highest_uscf p) (lowest_uscf p) (rating_history p).

Definition set_biggest_wins (f : list Notable.t -> list Notable.t) (p : t) : t :=
  mk (name p) (rating p) (glicko_rating p) (glicko_deviation p)
     (glicko_volatility p) (uscf_rating p) (uscf_games p) (games p) (wins p)
     (draws p) (losses p) (opponents p) (f (biggest_wins p))
     (biggest_upsets p) (highest_elo p) (lowest_elo p) (highest_glicko p)
     (lowest_glicko p) (highest_uscf p) (lowest_uscf p) (rating_history p).

Definition set_biggest_upsets (f : list Notable.t -> list Notable.t) (p : t) : t :=
  mk (name p) (rating p) (glicko_rating p) (glicko_deviation p)
     (glicko_volatility p) (uscf_rating p) (uscf_games p) (games p) (wins p)
     (draws p) (losses p) (opponents p) (biggest_wins p)
     (f (biggest_upsets p)) (highest_elo p) (lowest_elo p) (highest_glicko p)
     (lowest_glicko p) (highest_uscf p) (lowest_uscf p) (rating_history p).

Definition set_highest_elo (f : Z -> Z) (p : t) : t :=
  mk (name p) (rating p) (glicko_rating p) (glicko_deviation p)
     (glicko_volatility p) (uscf_rating p) (uscf_games p) (games p) (wins p)
     (draws p) (losses p) (opponents p) (biggest_wins p) (biggest_upsets p)
     (f (highest_elo p)) (lowest_elo p) (highest_glicko p) (lowest_glicko p)
     (highest_uscf p) (lowest_uscf p) (rating_history p).

Definition set_lowest_elo (f : Z -> Z) (p : t) : t :=
  mk (name p) (rating p) (glicko_rating p) (glicko_deviation p)
     (glicko_volatility p) (uscf_rating p) (uscf_games p) (games p) (wins p)
     (draws p) (losses p) (opponents p) (biggest_wins p) (biggest_upsets p)
     (highest_elo p) (f (lowest_elo p)) (highest_glicko p) (lowest_glicko p)
     (highest_uscf p) (lowest_uscf p) (rating_history p).

Definition set_highest_glicko (f : Z -> Z) (p : t) : t :=
  mk (name p) (rating p) (glicko_rating p) (glicko_deviation p)
     (glicko_volatility p) (uscf_rating p) (uscf_games p) (games p) (wins p)
     (draws p) (losses p) (opponents p) (biggest_wins p) (biggest_upsets p)
     (highest_elo p) (lowest_elo p) (f (highest_glicko p)) (lowest_glicko p)
     (highest_uscf p) (lowest_uscf p) (rating_history p).

Definition set_lowest_glicko (f : Z -> Z) (p : t) : t :=
  mk (name p) (rating p) (glicko_rating p) (glicko_deviation p)
     (glicko_volatility p) (uscf_rating p) (uscf_games p) (games p) (wins p)
     (draws p) (losses p) (opponents p) (biggest_wins p) (biggest_upsets p)
     (highest_elo p) (lowest_elo p) (highest_glicko p) (f (lowest_glicko p))
     (highest_uscf p) (lowest_uscf p) (rating_history p).

Definition set_highest_uscf (f : Z -> Z) (p : t) : t :=
  mk (name p) (rating p) (glicko_rating p) (glicko_deviation p)
     (glicko_volatility p) (uscf_rating p) (uscf_games p) (games p) (wins p)
     (draws p) (losses p) (opponents p) (biggest_wins p) (biggest_upsets p)
     (highest_elo p) (lowest_elo p) (highest_glicko p) (lowest_glicko p)
     (f (highest_uscf p)) (lowest_uscf p) (rating_history p).

Definition set_lowest_uscf (f : Z -> Z) (p : t) : t :=
  mk (name p) (rating p) (glicko_rating p) (glicko_deviation p)
     (glicko_volatility p) (uscf_rating p) (uscf_games p) (games p) (wins p)
     (draws p) (losses p) (opponents p) (biggest_wins p) (biggest_upsets p)
     (highest_elo p) (lowest_elo p) (highest_glicko p) (lowest_glicko p)
     (highest_uscf p) (f (lowest_uscf p)) (rating_history p).

Definition set_rating_history (f : option (list History.t) -> option (list History.t)) (p : t) : t :=
  mk (name p) (rating p) (glicko_rating p) (glicko_deviation p)
     (glicko_volatility p) (uscf_rating p) (uscf_games p) (games p) (wins p)
     (draws p) (losses p) (opponents p) (biggest_wins p) (biggest_upsets p)
     (highest_elo p) (lowest_elo p) (highest_glicko p) (lowest_glicko p)
     (highest_uscf p) (lowest_uscf p) (f (rating_history p)).

End Player.

(** A game record. *)
Module Game.

Record t : Type := mk {
  game_number : Z;
  white_player : string;
  black_player : string;
  result : string;
  date : option string;
  date_raw : option string;
  white_rating_before : Z;
  black_rating_before : Z;
  white_rating_after : Z;
  black_rating_after : Z;
  white_change : Z;
  black_change : Z
}.

End Game.

(** The object [self]. *)
Record system : Type := mk_system {
  k_factor : Z;
  initial_rating : Z;
  players : gmap string Player.t;
  games : list Game.t
}.

Definition set_players (f : gmap string Player.t -> gmap string Player.t)
    (self : system) : system :=
  mk_system (k_factor self) (initial_rating self) (f (players self)) (games self).

Definition set_games (f : list Game.t -> list Game.t) (self : system) : system :=
  mk_system (k_factor self) (initial_rating self) (players self) (f (games self)).

(** [ChessRatingSystem(k_factor, initial_rating)] *)
Definition new_system (k_factor initial_rating : Z) : system :=
  mk_system k_factor initial_rating ∅ [].

(** [ChessRatingSystem()] *)
Definition default_system : system := new_system 32 1200.

(** The dictionary [init_player] stores for a new name. *)
Definition new_player (initial_rating : Z) (name : string) : Player.t :=
  Player.mk name initial_rating 1200 350 0.06 1200 0 0 0 0 0 ∅ [] []
    initial_rating initial_rating 1200 1200 1200 1200 None.

#[global] Instance player_inhabited : Inhabited Player.t :=
  populate (new_player 1200 "").

(** ** Methods on the state: a state and exception monad

    A method that reads or writes [self] is a function from the state to the
    state it leaves and either its value or the exception it raised. *)

Definition M (A : Type) : Type := system -> system * res A.

#[global] Instance M_ret : MRet M := fun A a st => (st, Ok a).
#[global] Instance M_bind : MBind M := fun A B f m st =>
  match m st with
  | (st', Ok a) => f a st'
  | (st', Raise e) => (st', Raise e)
  end.

(** Reading [self]. *)
Definition gets {A} (f : system -> A) : M A := fun st => (st, Ok (f st)).

(** A computation that does not touch [self]. *)
Definition lift {A} (r : res A) : M A := fun st => (st, r).

(** Writing through a reference to the player dictionary [self.players[name]]. *)
Definition modify_player (name : string) (f : Player.t -> Player.t) : M unit :=
  fun st => (set_players (alter f name) st, Ok tt).

(** [self.games.append(game_record)] *)
Definition append_game (game_record : Game.t) : M unit :=
  fun st => (set_games (fun g => g ++ [game_record]) st, Ok tt).

(** [self.players[name]] *)
Definition player_of (st : system) (name : string) : Player.t :=
  players st !!! name.

(** ** Pure methods *)

(** [parse_game_result]: [None] stands for the pair [(None, None)]. *)
Definition parse_game_result (result : string) : option (float * float) :=
  if String.eqb result "1:0" || String.eqb result "1-0" then Some (1, 0)%float
  else if String.eqb result "0:1" || String.eqb result "0-1" then Some (0, 1)%float
  else if String.eqb result "0.5:0.5" || String.eqb result "0.5-0.5"
       then Some (0.5, 0.5)%float
  else None.

Definition months : list string :=
  ["Jan"; "Feb"; "Mar"; "Apr"; "May"; "Jun";
   "Jul"; "Aug"; "Sep"; "Oct"; "Nov"; "Dec"].

(** [format_date] *)
Definition format_date (date_str : string) : res (option string) :=
  if is_empty date_str || negb (String.length date_str =? 8)%nat then Ok None
  else
    except_value_index (
      let year := substring 0 4 date_str in
      let month := substring 4 2 date_str in
      let day := substring 6 2 date_str in
      m ← py_int month;
      month_name ← list_index months (m - 1);
      d ← py_int day;
      Ok (Some (month_name +:+ " " +:+ str_of_int d +:+ ", " +:+ year))).

(** [get_uscf_k_factor] *)
Definition get_uscf_k_factor (player : Player.t) : Z :=
  if Player.uscf_games player <? 20 then 40
  else if Player.uscf_rating player <? 2100 then 32
  else 24.

(** The key of the two sorts, [lambda x: x['rating_diff']]. *)
Definition sort_key (x : Notable.t) : Z := Notable.rating_diff x.

(** [l.sort(key=..., reverse=True)]: Python's sort is stable, also with
    [reverse=True], and the result of a stable sort does not depend on the
    algorithm; it is computed here by insertion. *)
Fixpoint insert_desc (x : Notable.t) (l : list Notable.t) : list Notable.t :=
  match l with
  | [] => [x]
  | y :: l' =>
      if sort_key y >? sort_key x then y :: insert_desc x l' else x :: y :: l'
  end.

Definition sort_desc (l : list Notable.t) : list Notable.t :=
  foldr insert_desc [] l.

(** [update_biggest_wins] *)
Definition update_biggest_wins (win_record : Notable.t) (player : Player.t)
    : Player.t :=
  Player.set_biggest_wins (fun l => take 5 (sort_desc (l ++ [win_record]))) player.

(** [update_biggest_upsets] *)
Definition update_biggest_upsets (upset_record : Notable.t) (player : Player.t)
    : Player.t :=
  Player.set_biggest_upsets
    (fun l => take 5 (sort_desc (l ++ [upset_record]))) player.

(** [update_rating_extremes] *)
Definition update_rating_extremes (player : Player.t) : Player.t :=
  let player :=
    if Player.rating player >? Player.highest_elo player
    then Player.set_highest_elo (fun _ => Player.rating player) player
    else player in
  let player :=
    if Player.rating player <? Player.lowest_elo player
    then Player.set_lowest_elo (fun _ => Player.rating player) player
    else player in
  let player :=
    if Player.glicko_rating player >? Player.highest_glicko player
    then Player.set_highest_glicko (fun _ => Player.glicko_rating player) player
    else player in
  let player :=
    if Player.glicko_rating player <? Player.lowest_glicko player
    then Player.set_lowest_glicko (fun _ => Player.glicko_rating player) player
    else player in
  let player :=
    if Player.uscf_rating player >? Player.highest_uscf player
    then Player.set_highest_uscf (fun _ => Player.uscf_rating player) player
    else player in
  if Player.uscf_rating player <? Player.lowest_uscf player
  then Player.set_lowest_uscf (fun _ => Player.uscf_rating player) player
  else player.

(** [init_player] *)
Definition init_player (name : string) : M unit := fun st =>
  match players st !! name with
  | Some _ => (st, Ok tt)
  | None =>
      (set_players <[name := new_player (initial_rating st) name]> st, Ok tt)
  end.

(** The head of [process_game] (lines 218 to 246 of the source): from the raw
    line to the two names, the result token and the date; [None] where the
    method returns [None] before it has looked at the result token. *)
Definition split_line (line : string)
    : option (string * string * string * option string) :=
  let line := strip line in
  if is_empty line then None
  else
    let parts := split line in
    if (length parts <? 3)%nat then None
    else
      let '(date_str, line_without_date) :=
        if (3 <? length parts)%nat
           && (String.length (List.last parts "") =? 8)%nat
           && isdigit (List.last parts "")
        then (Some (List.last parts ""), join_space (removelast parts))
        else (None, line) in
      match rsplit_space line_without_date with
      | None => None
      | Some (player_part, result) =>
          match split_first " - " player_part with
          | None => None
          | Some (white_player, black_player) =>
              Some (strip white_player, strip black_player, result, date_str)
          end
      end.

(** Stand-ins for the C library in closed examples.  An evaluation that
    returns a game record under [pow_unused] and [exp_unused] has not called
    the C library: had it, the NaN would have raised [ValueError] in
    [math_pow] or [math_exp].  [pow_one] and [exp_one] let an example go on
    after the ratings have moved apart. *)
Definition pow_unused (x y : float) : float := nan.
Definition exp_unused (x : float) : float := nan.
Definition pow_one (x y : float) : float := 1%float.
Definition exp_one (x : float) : float := 1%float.

(** ** The rating engine *)

Section Engine.

(** The functions [pow] and [exp] of the platform's C library. *)
Variable libm_pow : float -> float -> float.
Variable libm_exp : float -> float.

(** [math.pow(x, y)].  [pow(x, 0.0)] is [1.0] for every [x] (C99 F.10.4.4, and
    the documentation of [math.pow]).  With finite operands a NaN from the C
    library is a [ValueError] and an infinity an [OverflowError] (a
    [ValueError] at [x = 0]); with an operand that is not finite, which this
    program never passes, CPython answers from the table of C99 without
    raising. *)
Definition math_pow (x y : float) : res float :=
  if is_zero y then Ok 1%float
  else
    let r := libm_pow x y in
    if is_finite x && is_finite y then
      if is_nan r then Raise ValueError
      else if is_infinity r
           then (if is_zero x then Raise ValueError else Raise OverflowError)
      else Ok r
    else Ok r.

(** [math.exp(x)].  [exp(0.0)] and [exp(-0.0)] are [1.0] (C99 F.10.3.1); a NaN
    from a number is a [ValueError], an infinity from a finite number an
    [OverflowError]. *)
Definition math_exp (x : float) : res float :=
  if is_zero x then Ok 1%float
  else
    let r := libm_exp x in
    if is_nan r && negb (is_nan x) then Raise ValueError
    else if is_infinity r && is_finite x then Raise OverflowError
    else Ok r.

(** [calculate_elo_change] *)
Definition calculate_elo_change (self : system) (rating_a rating_b : Z)
    (score_a : float) : res Z :=
  q ← int_truediv (rating_b - rating_a) 400;
  p ← math_pow 10 q;
  expected_a ← float_div 1 (1 + p);
  k ← float_of_int (k_factor self);
  py_round (k * (score_a - expected_a)).

(** [calculate_uscf_change] *)
Definition calculate_uscf_change (rating_a rating_b : Z) (score_a : float)
    (k_factor : Z) : res Z :=
  q ← int_truediv (rating_b - rating_a) 400;
  p ← math_pow 10 q;
  expected_a ← float_div 1 (1 + p);
  k ← float_of_int k_factor;
  py_round (k * (score_a - expected_a)).

(** [glicko2_scale] *)
Definition glicko2_scale (rating : Z) : res float :=
  r ← float_of_int (rating - 1200);
  float_div r 173.7178.

(** [glicko2_unscale] *)
Definition glicko2_unscale (mu : float) : float := (mu * 173.7178 + 1200)%float.

(** [glicko2_g] *)
Definition glicko2_g (phi : float) : res float :=
  q ← float_div (3 * phi * phi) (math_pi * math_pi);
  s ← math_sqrt (1 + q);
  float_div 1 s.

(** [glicko2_e] *)
Definition glicko2_e (mu mu_j phi_j : float) : res float :=
  g ← glicko2_g phi_j;
  x ← math_exp (- g * (mu - mu_j));
  float_div 1 (1 + x).

(** [update_glicko2_ratings], lines 146 to 160 and again 163 to 175: the new
    rating, deviation and volatility of one player, on the Glicko-2 scale,
    from the player's [mu], [phi], [sigma] and score and the opponent's [mu]
    and [phi]. *)
Definition glicko2_new_values (mu_a phi_a sigma_a mu_b phi_b score_a : float)
    : res (float * float * float) :=
  g_b ← glicko2_g phi_b;
  e_ab ← glicko2_e mu_a mu_b phi_b;
  v_a ← float_div 1 (g_b * g_b * e_ab * (1 - e_ab));
  let delta_a := (v_a * g_b * (score_a - e_ab))%float in
  q ← float_div (delta_a * delta_a) v_a;
  h ← float_div (sigma_a * sigma_a + q) 2;
  sigma_a_new ← math_sqrt h;
  let sigma_a_new := py_min sigma_a_new 0.2 in
  phi_a_new ← math_sqrt (phi_a * phi_a + sigma_a_new * sigma_a_new);
  q1 ← float_div 1 (phi_a_new * phi_a_new);
  q2 ← float_div 1 v_a;
  s ← math_sqrt (q1 + q2);
  phi_a_new ← float_div 1 s;
  let mu_a_new := (mu_a + phi_a_new * phi_a_new * g_b * (score_a - e_ab))%float in
  Ok (mu_a_new, phi_a_new, sigma_a_new).

(** [update_glicko2_ratings]: [player_a] and [player_b] are references to
    player dictionaries. *)
Definition update_glicko2_ratings (player_a player_b : string) (score_a : float)
    : M unit :=
  a ← gets (fun st => player_of st player_a);
  b ← gets (fun st => player_of st player_b);
  mu_a ← lift (glicko2_scale (Player.glicko_rating a));
  mu_b ← lift (glicko2_scale (Player.glicko_rating b));
  phi_a ← lift (float_div (Player.glicko_deviation a) 173.7178);
  phi_b ← lift (float_div (Player.glicko_deviation b) 173.7178);
  let sigma_a := Player.glicko_volatility a in
  let sigma_b := Player.glicko_volatility b in
  '(mu_a_new, phi_a_new, sigma_a_new) ←
    lift (glicko2_new_values mu_a phi_a sigma_a mu_b phi_b score_a);
  let score_b := (1 - score_a)%float in
  '(mu_b_new, phi_b_new, sigma_b_new) ←
    lift (glicko2_new_values mu_b phi_b sigma_b mu_a phi_a score_b);
  r_a ← lift (py_round (glicko2_unscale mu_a_new));
  modify_player player_a (Player.set_glicko_rating (fun _ => r_a));;
  modify_player player_a (Player.set_glicko_deviation
    (fun _ => py_round_ndigits (phi_a_new * 173.7178) 1));;
  modify_player player_a (Player.set_glicko_volatility
    (fun _ => py_round_ndigits sigma_a_new 4));;
  r_b ← lift (py_round (glicko2_unscale mu_b_new));
  modify_player player_b (Player.set_glicko_rating (fun _ => r_b));;
  modify_player player_b (Player.set_glicko_deviation
    (fun _ => py_round_ndigits (phi_b_new * 173.7178) 1));;
  modify_player player_b (Player.set_glicko_volatility
    (fun _ => py_round_ndigits sigma_b_new 4)).

(** [update_uscf_ratings]: [player_a] and [player_b] are references to
    player dictionaries. *)
Definition update_uscf_ratings (player_a player_b : string) (score_a : float)
    : M unit :=
  k_a ← gets (fun st => get_uscf_k_factor (player_of st player_a));
  k_b ← gets (fun st => get_uscf_k_factor (player_of st player_b));
  rating_a ← gets (fun st => Player.uscf_rating (player_of st player_a));
  rating_b ← gets (fun st => Player.uscf_rating (player_of st player_b));
  change_a ← lift (calculate_uscf_change rating_a rating_b score_a k_a);
  change_b ← lift (calculate_uscf_change rating_b rating_a (1 - score_a) k_b);
  modify_player player_a (Player.set_uscf_rating (fun r => r + change_a));;
  modify_player player_b (Player.set_uscf_rating (fun r => r + change_b));;
  modify_player player_a (Player.set_uscf_games (fun n => n + 1));;
  modify_player player_b (Player.set_uscf_games (fun n => n + 1)).

(** [self.format_date(date_str) if date_str else None] *)
Definition format_date_opt (date_str : option string) : res (option string) :=
  match date_str with
  | Some d => format_date d
  | None => Ok None
  end.

(** [process_game] *)
Definition process_game (line : string) (game_number : Z)
    : M (option Game.t) :=
  match split_line line with
  | None => mret None
  | Some (white_player, black_player, result, date_str) =>
    (* Initialize players if needed *)
    init_player white_player;;
    init_player black_player;;
    (* Parse result *)
    match parse_game_result result with
    | None => mret None
    | Some (white_score, black_score) =>
      (* Store ratings before the game *)
      white_rating_before ←
        gets (fun st => Player.rating (player_of st white_player));
      black_rating_before ←
        gets (fun st => Player.rating (player_of st black_player));
      (* Calculate rating changes *)
      self ← gets (fun st => st);
      white_change ← lift (calculate_elo_change self
        white_rating_before black_rating_before white_score);
      black_change ← lift (calculate_elo_change self
        black_rating_before white_rating_before black_score);
      (* Update ratings *)
      modify_player white_player (Player.set_rating (fun r => r + white_change));;
      modify_player black_player (Player.set_rating (fun r => r + black_change));;
      (* Update Glicko-2 ratings *)
      update_glicko2_ratings white_player black_player white_score;;
      (* Update USCF ratings *)
      update_uscf_ratings white_player black_player white_score;;
      (* Update rating extremes for both players *)
      modify_player white_player update_rating_extremes;;
      modify_player black_player update_rating_extremes;;
      (* Track biggest wins and upsets based on ELO rating difference *)
      let rating_diff := Z.abs (white_rating_before - black_rating_before) in
      (if (white_score =? 1)%float then
         (if black_rating_before >? white_rating_before then
            date ← lift (format_date_opt date_str);
            modify_player white_player (update_biggest_wins
              (Notable.mk black_player rating_diff white_rating_before
                 black_rating_before game_number date "Win"))
          else mret tt);;
         (if black_rating_before >? white_rating_before then
            date ← lift (format_date_opt date_str);
            modify_player black_player (update_biggest_upsets
              (Notable.mk white_player rating_diff black_rating_before
                 white_rating_before game_number date "Loss"))
          else mret tt)
       else if (black_score =? 1)%float then
         (if white_rating_before >? black_rating_before then
            date ← lift (format_date_opt date_str);
            modify_player black_player (update_biggest_wins
              (Notable.mk white_player rating_diff black_rating_before
                 white_rating_before game_number date "Win"))
          else mret tt);;
         (if white_rating_before >? black_rating_before then
            date ← lift (format_date_opt date_str);
            modify_player white_player (update_biggest_upsets
              (Notable.mk black_player rating_diff white_rating_before
                 black_rating_before game_number date "Loss"))
          else mret tt)
       else mret tt);;
      (* Update game counts *)
      modify_player white_player (Player.set_games (fun n => n + 1));;
      modify_player black_player (Player.set_games (fun n => n + 1));;
      (* Update win/draw/loss stats *)
      (if (white_score =? 1)%float then
         modify_player white_player (Player.set_wins (fun n => n + 1));;
         modify_player black_player (Player.set_losses (fun n => n + 1))
       else if (black_score =? 1)%float then
         modify_player black_player (Player.set_wins (fun n => n + 1));;
         modify_player white_player (Player.set_losses (fun n => n + 1))
       else
         modify_player white_player (Player.set_draws (fun n => n + 1));;
         modify_player black_player (Player.set_draws (fun n => n + 1)));;
      (* Update head-to-head records *)
      modify_player white_player (Player.set_opponents (fun o =>
        match o !! black_player with
        | None => <[black_player := Tally.mk 0 0 0 0]> o
        | Some _ => o
        end));;
      modify_player black_player (Player.set_opponents (fun o =>
        match o !! white_player with
        | None => <[white_player := Tally.mk 0 0 0 0]> o
        | Some _ => o
        end));;
      let opponent_tally (player opponent : string) (f : Tally.t -> Tally.t) :=
        modify_player player (Player.set_opponents (alter f opponent)) in
      opponent_tally white_player black_player (Tally.set_games (fun n => n + 1));;
      opponent_tally black_player white_player (Tally.set_games (fun n => n + 1));;
      (if (white_score =? 1)%float then
         opponent_tally white_player black_player (Tally.set_wins (fun n => n + 1));;
         opponent_tally black_player white_player (Tally.set_losses (fun n => n + 1))
       else if (black_score =? 1)%float then
         opponent_tally white_player black_player (Tally.set_losses (fun n => n + 1));;
         opponent_tally black_player white_player (Tally.set_wins (fun n => n + 1))
       else
         opponent_tally white_player black_player (Tally.set_draws (fun n => n + 1));;
         opponent_tally black_player white_player (Tally.set_draws (fun n => n + 1)));;
      (* Store rating history for charting *)
      let ensure_history (p : Player.t) :=
        match Player.rating_history p with
        | None => Player.set_rating_history (fun _ => Some []) p
        | Some _ => p
        end in
      modify_player white_player ensure_history;;
      modify_player black_player ensure_history;;
      (* Add current game to rating history *)
      game_date ← lift (match date_str with
                        | Some d => format_date d
                        | None => Ok (Some ("Game " +:+ str_of_int game_number))
                        end);
      let snapshot (p : Player.t) :=
        Player.set_rating_history (fmap (fun h => h ++
          [History.mk game_number game_date (Player.rating p)
             (Player.glicko_rating p) (Player.uscf_rating p)])) p in
      modify_player white_player snapshot;;
      modify_player black_player snapshot;;
      (* Create game record *)
      date ← lift (format_date_opt date_str);
      white_rating_after ←
        gets (fun st => Player.rating (player_of st white_player));
      black_rating_after ←
        gets (fun st => Player.rating (player_of st black_player));
      let game_record :=
        Game.mk game_number white_player black_player result date date_str
          white_rating_before black_rating_before
          white_rating_after black_rating_after white_change black_change in
      append_game game_record;;
      mret (Some game_record)
    end
  end.

(** The loop of [load_games_file] over the lines read, numbered from
    [game_number]: it stops at the first exception, which the method catches
    and reports, and the state stays as the exception left it. *)
Fixpoint process_lines (lines : list string) (game_number : Z) : M unit :=
  match lines with
  | [] => mret tt
  | line :: lines' =>
      process_game line game_number;;
      process_lines lines' (game_number + 1)
  end.

(** [load_games_file] after the file was read: [enumerate(lines, 1)]. *)
Definition load_games (lines : list string) : M unit := process_lines lines 1.

(** ** Vocabulary of the statements *)

(** [hoare P m Q E]: from a state that satisfies [P], the method [m] either
    returns a value [a] in a state that satisfies [Q a], or raises an
    exception in a state that satisfies [E]. *)
Definition hoare {A} (P : system -> Prop) (m : M A)
    (Q : A -> system -> Prop) (E : system -> Prop) : Prop :=
  forall st, P st ->
    match m st with
    | (st', Ok a) => Q a st'
    | (st', Raise _) => E st'
    end.

(** What the stored players look like through [delta]. *)
Definition view {V} (delta : Player.t -> V) (st : system) : gmap string V :=
  delta <$> players st.

(** The state has the configuration [kf], [ir] and the view [m]. *)
Definition sees {V} (delta : Player.t -> V) (kf ir : Z) (m : gmap string V)
    (st : system) : Prop :=
  k_factor st = kf /\ initial_rating st = ir /\ view delta st = m.

(** The state has the configuration [kf], [ir] and a view that satisfies
    [inv]. *)
Definition keeps {V} (delta : Player.t -> V) (kf ir : Z)
    (inv : gmap string V -> Prop) (st : system) : Prop :=
  k_factor st = kf /\ initial_rating st = ir /\ inv (view delta st).

(** The view after [init_player]. *)
Definition init_view {V} (delta : Player.t -> V) (ir : Z) (a : string)
    (m : gmap string V) : gmap string V :=
  match m !! a with
  | Some _ => m
  | None => <[a := delta (new_player ir a)]> m
  end.

(** The state after the first [k] lines of a log were processed by a new
    system. *)
Definition after_prefix (k_factor initial_rating : Z) (lines : list string)
    (k : nat) : system :=
  (load_games (take k lines) (new_system k_factor initial_rating)).1.

(** The write [f] does not show through [delta]. *)
Definition ignores {V} (delta : Player.t -> V) (f : Player.t -> Player.t) : Prop :=
  forall p, delta (f p) = delta p.

(** The player dictionary a game finds for [name]: the stored one, or the one
    [init_player] creates. *)
Definition player_before (st : system) (name : string) : Player.t :=
  default (new_player (initial_rating st) name) (players st !! name).

(** Games counted minus games classified. *)
Definition balance (p : Player.t) : Z :=
  Player.games p - Player.wins p - Player.draws p - Player.losses p.

(** The USCF game counter minus the game counter. *)
Definition counter_gap (p : Player.t) : Z :=
  Player.uscf_games p - Player.games p.

Definition all_zero (m : gmap string Z) : Prop :=
  forall name v, m !! name = Some v -> v = 0.

(** A tally read from the opponent's side. *)
Definition mirror (t : Tally.t) : Tally.t :=
  Tally.mk (Tally.games t) (Tally.losses t) (Tally.draws t) (Tally.wins t).

(** The tally the player [P] keeps against [O], in a view of the
    [opponents] dictionaries. *)
Definition head_to_head (m : gmap string (gmap string Tally.t)) (P O : string)
    : option Tally.t :=
  m !! P ≫= fun row => row !! O.

Definition symmetric (m : gmap string (gmap string Tally.t)) : Prop :=
  forall P O, head_to_head m O P = mirror <$> head_to_head m P O.

(** [if opponent not in opponents: opponents[opponent] = zero tally] *)
Definition ensure_tally (opponent : string) (o : gmap string Tally.t)
    : gmap string Tally.t :=
  match o !! opponent with
  | None => <[opponent := Tally.mk 0 0 0 0]> o
  | Some _ => o
  end.

(** The order of a list of notable results: larger rating gap first, and
    among equal gaps the earlier game first. *)
Definition notable_before (a b : Notable.t) : Prop :=
  Notable.rating_diff b < Notable.rating_diff a
  \/ (Notable.rating_diff a = Notable.rating_diff b
      /\ Notable.game_number a < Notable.game_number b).

(** Among entries of equal rating gap, [a] is from an earlier game than [b]. *)
Definition earlier_on_tie (a b : Notable.t) : Prop :=
  Notable.rating_diff a = Notable.rating_diff b ->
  Notable.game_number a < Notable.game_number b.

(** A list of notable results of the games before [bound]. *)
Definition notable_ok (bound : Z) (l : list Notable.t) : Prop :=
  (length l <= 5)%nat /\ StronglySorted notable_before l
  /\ Forall (fun x => Notable.game_number x < bound) l.

(** The two lists of notable results of a player. *)
Definition notable_lists (p : Player.t) : list Notable.t * list Notable.t :=
  (Player.biggest_wins p, Player.biggest_upsets p).

Definition notable_inv (nw nu : Z)
    (m : gmap string (list Notable.t * list Notable.t)) : Prop :=
  forall name v, m !! name = Some v -> notable_ok nw v.1 /\ notable_ok nu v.2.

(** The USCF rating and the USCF game counter of a player. *)
Definition uscf_state (p : Player.t) : Z * Z :=
  (Player.uscf_rating p, Player.uscf_games p).

(** The number a string of decimal digits denotes. *)
Definition decimal_number (s : string) : Z :=
  fold_left (fun acc c => 10 * acc + decimal_value c) (list_ascii_of_string s) 0.

(** The two game counters of a player: the USCF one and the overall one. *)
Definition game_counters (p : Player.t) : Z * Z :=
  (Player.uscf_games p, Player.games p).

(** The number of sides the player [name] has taken in what a call of
    [process_game] returned: 0, 1, or 2 when the name stands on both sides of
    the game; 0 when the line was skipped or the call raised. *)
Definition sides (r : res (option Game.t)) (name : string) : Z :=
  match r with
  | Ok (Some rec) =>
      (if decide (name = Game.white_player rec) then 1 else 0)
      + (if decide (name = Game.black_player rec) then 1 else 0)
  | _ => 0
  end.

(** The Glicko-2 fields of a player: rating, deviation, volatility. *)
Definition glicko_state (p : Player.t) : Z * float * float :=
  (Player.glicko_rating p, Player.glicko_deviation p, Player.glicko_volatility p).

(** A volatility at or under the cap. *)
Definition capped (v : float) : Prop := (v <=? 0.2)%float = true.

Definition all_capped (m : gmap string float) : Prop :=
  forall name v, m !! name = Some v -> capped v.

(** The volatility the description of the update gives the player [p] after
    a game against [o]: [min(sqrt((sigma^2 + Delta^2/v)/2), 0.2)], with
    [sigma], [Delta] and [v] from the two players as they are before the
    game. *)
Definition capped_volatility (p o : Player.t) (score : float) : res float :=
  mu ← glicko2_scale (Player.glicko_rating p);
  mu_j ← glicko2_scale (Player.glicko_rating o);
  phi_j ← float_div (Player.glicko_deviation o) 173.7178;
  g ← glicko2_g phi_j;
  e ← glicko2_e mu mu_j phi_j;
  v ← float_div 1 (g * g * e * (1 - e));
  let Delta := (v * g * (score - e))%float in
  let sigma := Player.glicko_volatility p in
  q ← float_div (Delta * Delta) v;
  h ← float_div (sigma * sigma + q) 2;
  s ← math_sqrt h;
  Ok (py_min s 0.2).

(** A number that is not below zero: a zero, a positive number, the positive
    infinity, or a NaN. *)
Definition not_negative (f : spec_float) : bool :=
  match f with
  | S754_finite true _ _ | S754_infinity true => false
  | _ => true
  end.




























(** The three ratings of a player, and what the last entry of the player's
    rating history shows of them: nothing while there is no history. *)
Definition shown (h : History.t) : Z * Z * Z :=
  (History.elo h, History.glicko2 h, History.uscf h).





(** ** Facts on the Python layer *)

Lemma int_digits_exn acc us s e : int_digits acc us s = Raise e -> e = ValueError.
Proof.
  revert acc us. induction s as [|c s IH]; intros acc us; simpl.
  - destruct us; congruence.
  - destruct (isdecimal_char c); [apply IH|].
    destruct (Ascii.eqb c "_" && negb us); [apply IH|congruence].
Qed.

Lemma int_unsigned_exn s e : int_unsigned s = Raise e -> e = ValueError.
Proof.
  destruct s as [|c s]; simpl; [congruence|].
  destruct (isdecimal_char c); [apply int_digits_exn|congruence].
Qed.

Lemma py_int_exn s e : py_int s = Raise e -> e = ValueError.
Proof.
  unfold py_int.
  destruct (rstrip_int (lstrip_int s)) as [|[[] [] [] [] [] [] [] []] s'];
    intros H;
    try (apply int_unsigned_exn in H; exact H).
  destruct (int_unsigned s') as [z|e'] eqn:Hz; simpl in H; [discriminate|].
  injection H as <-. exact (int_unsigned_exn _ _ Hz).
Qed.

(** [int] does not skip the separators 28 to 31, which [str.strip] removes:
    a date with one of them in a field has no formatted form. *)
Lemma py_int_separator :
  strip (String (ascii_of_nat 28) "1") = "1"
  /\ py_int (String (ascii_of_nat 28) "1") = Raise ValueError
  /\ py_int (String (ascii_of_nat 160) "1") = Ok 1
  /\ format_date ("2025" +:+ String (ascii_of_nat 28) "101") = Ok None.
Proof. vm_compute. repeat split; reflexivity. Qed.

Lemma list_index_exn {A} (l : list A) i e : list_index l i = Raise e -> e = IndexError.
Proof.
  unfold list_index. intros H.
  repeat match type of H with
  | context [match ?x with _ => _ end] => destruct x eqn:?
  end; congruence.
Qed.

Lemma format_date_total date_str : exists r, format_date date_str = Ok r.
Proof.
  unfold format_date.
  destruct (is_empty date_str || negb (String.length date_str =? 8)%nat); [eauto|].
  destruct (py_int (substring 4 2 date_str)) as [m|e] eqn:Hm; simpl.
  2: { rewrite (py_int_exn _ _ Hm). eauto. }
  destruct (list_index months (m - 1)) as [month_name|e] eqn:Hl; simpl.
  2: { rewrite (list_index_exn _ _ _ Hl). eauto. }
  destruct (py_int (substring 6 2 date_str)) as [d|e] eqn:Hd; simpl.
  2: { rewrite (py_int_exn _ _ Hd). eauto. }
  eauto.
Qed.

Lemma format_date_opt_total date_str : exists r, format_date_opt date_str = Ok r.
Proof. destruct date_str; simpl; eauto using format_date_total. Qed.

Lemma game_date_total date_str (game_number : Z) :
  exists r,
    match date_str with
    | Some d => format_date d
    | None => Ok (Some ("Game " +:+ str_of_int game_number))
    end = Ok r.
Proof. destruct date_str; eauto using format_date_total. Qed.

(** ** Rules of the program logic *)

Lemma hoare_conseq {A} (P P' : system -> Prop) (m : M A)
    (Q Q' : A -> system -> Prop) (E E' : system -> Prop) :
  (forall st, P' st -> P st) ->
  (forall a st, Q a st -> Q' a st) ->
  (forall st, E st -> E' st) ->
  hoare P m Q E -> hoare P' m Q' E'.
Proof.
  intros HP HQ HE H st Hst. specialize (H st (HP st Hst)).
  destruct (m st) as [st' [a|e]]; auto.
Qed.


Lemma hoare_post {A} (P : system -> Prop) (m : M A)
    (Q Q' : A -> system -> Prop) (E E' : system -> Prop) :
  (forall a st, Q a st -> Q' a st) ->
  (forall st, E st -> E' st) ->
  hoare P m Q E -> hoare P m Q' E'.
Proof. apply hoare_conseq; auto. Qed.

Lemma hoare_ret {A} (P : system -> Prop) (a : A) E :
  hoare P (mret a) (fun a' st => P st /\ a' = a) E.
Proof. intros st Hst. simpl. auto. Qed.

Lemma hoare_bind {A B} (P : system -> Prop) (m : M A) (k : A -> M B)
    (R : A -> system -> Prop) (Q : B -> system -> Prop) E :
  hoare P m R E -> (forall a, hoare (R a) (k a) Q E) ->
  hoare P (m ≫= k) Q E.
Proof.
  intros Hm Hk st Hst. unfold mbind, M_bind.
  specialize (Hm st Hst). destruct (m st) as [st' [a|e]]; [|exact Hm].
  exact (Hk a st' Hm).
Qed.

Lemma hoare_gets {A} (P : system -> Prop) (f : system -> A) E :
  hoare P (gets f) (fun a st => P st /\ a = f st) E.
Proof. intros st Hst. simpl. auto. Qed.

Lemma hoare_lift {A} (P : system -> Prop) (r : res A) (E : system -> Prop) :
  (forall st, P st -> E st) ->
  hoare P (lift r) (fun a st => P st /\ r = Ok a) E.
Proof. intros HE st Hst. unfold lift. destruct r; auto. Qed.

Lemma hoare_lift_total {A} (P : system -> Prop) (r : res A) E :
  (exists a, r = Ok a) ->
  hoare P (lift r) (fun a st => P st /\ r = Ok a) E.
Proof. intros [a ->] st Hst. simpl. auto. Qed.


Lemma hoare_pure {A} (phi : Prop) (P : system -> Prop) (m : M A) Q E :
  (phi -> hoare P m Q E) -> hoare (fun st => P st /\ phi) m Q E.
Proof. intros H st [Hst Hphi]. exact (H Hphi st Hst). Qed.

(** *** Rules for a method followed by the rest of the body *)

Lemma hoare_seq_gets {A B} (P : system -> Prop) (f : system -> A)
    (k : A -> M B) Q E :
  (forall x, hoare P (k x) Q E) -> hoare P (gets f ≫= k) Q E.
Proof. intros H st Hst. exact (H (f st) st Hst). Qed.

Lemma hoare_seq_gets_val {A B} (P : system -> Prop) (f : system -> A) (v : A)
    (k : A -> M B) Q E :
  (forall st, P st -> f st = v) -> hoare P (k v) Q E ->
  hoare P (gets f ≫= k) Q E.
Proof.
  intros Hf H st Hst. unfold mbind, M_bind, gets. rewrite (Hf st Hst).
  exact (H st Hst).
Qed.

Lemma hoare_seq_lift {A B} (P : system -> Prop) (r : res A) (k : A -> M B) Q E :
  (forall st, P st -> E st) ->
  (forall a, r = Ok a -> hoare P (k a) Q E) ->
  hoare P (lift r ≫= k) Q E.
Proof.
  intros HE H st Hst. unfold mbind, M_bind, lift.
  destruct r as [a|e]; [exact (H a eq_refl st Hst)|exact (HE st Hst)].
Qed.

Lemma hoare_seq_lift_total {A B} (P : system -> Prop) (r : res A)
    (k : A -> M B) Q E :
  (exists a, r = Ok a) ->
  (forall a, r = Ok a -> hoare P (k a) Q E) ->
  hoare P (lift r ≫= k) Q E.
Proof.
  intros [a ->] H st Hst. exact (H a eq_refl st Hst).
Qed.

Lemma hoare_seq_modify {B} (P P' : system -> Prop) name f (k : unit -> M B) Q E :
  (forall st, P st -> P' (set_players (alter f name) st)) ->
  hoare P' (k tt) Q E ->
  hoare P (modify_player name f ≫= k) Q E.
Proof. intros HP H st Hst. exact (H _ (HP st Hst)). Qed.

Lemma hoare_seq {A B} (P : system -> Prop) (m : M A) (k : A -> M B)
    (R : system -> Prop) Q E :
  hoare P m (fun _ => R) E -> (forall a, hoare R (k a) Q E) ->
  hoare P (m ≫= k) Q E.
Proof. intros Hm Hk. eapply hoare_bind; [exact Hm|exact Hk]. Qed.

Lemma hoare_return {A} (P : system -> Prop) (a : A) (Q : A -> system -> Prop) E :
  (forall st, P st -> Q a st) -> hoare P (mret a) Q E.
Proof. intros H st Hst. exact (H st Hst). Qed.

Lemma hoare_seq_assoc {A B C} (P : system -> Prop) (m : M A) (f : A -> M B)
    (g : B -> M C) Q E :
  hoare P (m ≫= fun x => f x ≫= g) Q E -> hoare P ((m ≫= f) ≫= g) Q E.
Proof.
  intros H st Hst. specialize (H st Hst). unfold mbind, M_bind in *.
  destruct (m st) as [st' [a|e]]; exact H.
Qed.

Lemma hoare_seq_ret {A B} (P : system -> Prop) (a : A) (k : A -> M B) Q E :
  hoare P (k a) Q E -> hoare P (mret a ≫= k) Q E.
Proof. intros H st Hst. exact (H st Hst). Qed.

Lemma lookup_alter_fmap {V} (g : V -> V) (a name : string) (m : gmap string V) :
  alter g a m !! name = (if decide (a = name) then g else id) <$> m !! name.
Proof.
  rewrite lookup_alter. destruct (decide (a = name)) as [->|]; [done|].
  by destruct (m !! name).
Qed.

(** *** Views *)

Section Views.
Context {V : Type} (delta : Player.t -> V) (kf ir : Z).

Lemma sees_modify m a f g st :
  (forall p, delta (f p) = g (delta p)) ->
  sees delta kf ir m st ->
  sees delta kf ir (alter g a m) (set_players (alter f a) st).
Proof.
  intros Hf (HK & HI & Hm). repeat split; [exact HK|exact HI|].
  unfold view in *. simpl. rewrite <- Hm. apply fmap_alter. auto.
Qed.

Lemma sees_frame m a f st :
  (forall p, delta (f p) = delta p) ->
  sees delta kf ir m st -> sees delta kf ir m (set_players (alter f a) st).
Proof.
  intros Hf (HK & HI & Hm). repeat split; [exact HK|exact HI|].
  unfold view in *. simpl. rewrite <- Hm. apply map_eq. intros j.
  rewrite !lookup_fmap, lookup_alter.
  destruct (decide (a = j)) as [<-|]; [|done].
  destruct (players st !! a); simpl; [|done]. by rewrite Hf.
Qed.

Lemma sees_append_game m g st :
  sees delta kf ir m st -> sees delta kf ir m (set_games g st).
Proof. intros H. exact H. Qed.

Lemma sees_player_of m a v st :
  sees delta kf ir m st -> m !! a = Some v -> delta (player_of st a) = v.
Proof.
  intros (_ & _ & Hm) Hv. unfold view in Hm. subst m.
  rewrite lookup_fmap in Hv. unfold player_of.
  destruct (players st !! a) as [p|] eqn:Hp; [|discriminate].
  rewrite (lookup_total_correct _ _ _ Hp). simpl in Hv. congruence.
Qed.

Lemma hoare_seq_modify_view {B} m a f g (k : unit -> M B) Q E :
  (forall p, delta (f p) = g (delta p)) ->
  hoare (sees delta kf ir (alter g a m)) (k tt) Q E ->
  hoare (sees delta kf ir m) (modify_player a f ≫= k) Q E.
Proof.
  intros Hf. apply hoare_seq_modify. intros st. by apply sees_modify.
Qed.

Lemma hoare_seq_modify_frame {B} m a f (k : unit -> M B) Q E :
  (forall p, delta (f p) = delta p) ->
  hoare (sees delta kf ir m) (k tt) Q E ->
  hoare (sees delta kf ir m) (modify_player a f ≫= k) Q E.
Proof.
  intros Hf. apply hoare_seq_modify. intros st. by apply sees_frame.
Qed.

Lemma hoare_modify_view m a f g E :
  (forall p, delta (f p) = g (delta p)) ->
  hoare (sees delta kf ir m) (modify_player a f)
    (fun _ => sees delta kf ir (alter g a m)) E.
Proof. intros Hf st Hst. simpl. by apply sees_modify. Qed.

Lemma hoare_modify_view_post m a f g (Q : unit -> system -> Prop) E :
  (forall p, delta (f p) = g (delta p)) ->
  (forall st, sees delta kf ir (alter g a m) st -> Q tt st) ->
  hoare (sees delta kf ir m) (modify_player a f) Q E.
Proof. intros Hf HQ st Hst. simpl. apply HQ. by apply sees_modify. Qed.

Lemma hoare_modify_frame m a f E :
  (forall p, delta (f p) = delta p) ->
  hoare (sees delta kf ir m) (modify_player a f) (fun _ => sees delta kf ir m) E.
Proof. intros Hf st Hst. simpl. by apply sees_frame. Qed.

Lemma hoare_seq_init {B} m a (k : unit -> M B) Q E :
  hoare (sees delta kf ir (init_view delta ir a m)) (k tt) Q E ->
  hoare (sees delta kf ir m) (init_player a ≫= k) Q E.
Proof.
  intros H st (HK & HI & Hm). unfold mbind, M_bind, init_player.
  assert (Hlk : m !! a = delta <$> players st !! a)
    by (rewrite <- Hm; apply lookup_fmap).
  destruct (players st !! a) as [p|] eqn:Hp.
  - apply H. repeat split; [exact HK|exact HI|].
    unfold init_view. rewrite Hlk. exact Hm.
  - apply H. repeat split; [exact HK|exact HI|].
    unfold init_view. rewrite Hlk. unfold view. simpl.
    rewrite fmap_insert, HI. f_equal. exact Hm.
Qed.

Lemma hoare_seq_append_game {B} m g (k : unit -> M B) Q E :
  hoare (sees delta kf ir m) (k tt) Q E ->
  hoare (sees delta kf ir m) (append_game g ≫= k) Q E.
Proof.
  intros H st Hst.
  exact (H (set_games (fun l => l ++ [g]) st) (sees_append_game m _ st Hst)).
Qed.

Lemma hoare_keeps_pre {A} (inv : gmap string V -> Prop) (prog : M A) Q E :
  (forall m, inv m -> hoare (sees delta kf ir m) prog Q E) ->
  hoare (keeps delta kf ir inv) prog Q E.
Proof.
  intros H st (HK & HI & Hinv). apply (H (view delta st) Hinv). by repeat split.
Qed.

Lemma sees_keeps (inv : gmap string V -> Prop) m st :
  inv m -> sees delta kf ir m st -> keeps delta kf ir inv st.
Proof. intros Hinv (? & ? & <-). by repeat split. Qed.

Lemma hoare_seq_self {B} m (k : system -> M B) Q E :
  (forall self, k_factor self = kf -> hoare (sees delta kf ir m) (k self) Q E) ->
  hoare (sees delta kf ir m) (gets (fun st => st) ≫= k) Q E.
Proof. intros H st Hst. exact (H st (proj1 Hst) st Hst). Qed.

End Views.
Ltac hnorm := cbv beta iota zeta.

Ltac hsplit_pairs :=
  repeat match goal with
  | x : (_ * _)%type |- _ => destruct x
  end.

(** One step through a statement that leaves the view alone. *)
Ltac hframe_step solve_exn solve_frame :=
  hnorm;
  lazymatch goal with
  | |- hoare _ (mbind _ (mbind _ _)) _ _ => apply hoare_seq_assoc
  | |- hoare _ (mbind _ (mret _)) _ _ => apply hoare_seq_ret
  | |- hoare _ (mret _) _ _ => apply hoare_return; try (intros ? ?; assumption)
  | |- hoare ?P (mbind _ (if _ then _ else _)) _ _ =>
      apply hoare_seq with (R := P); [|intros ?]
  | |- hoare _ (if ?c then _ else _) _ _ => destruct c eqn:?
  | |- hoare _ (mbind _ (gets (fun st => st))) _ _ =>
      apply hoare_seq_self; intros ? ?
  | |- hoare _ (mbind _ (gets _)) _ _ =>
      apply hoare_seq_gets; intros ?
  | |- hoare _ (mbind _ (lift (format_date_opt _))) _ _ =>
      apply hoare_seq_lift_total; [apply format_date_opt_total|intros ? ?]
  | |- hoare _ (mbind _ (lift (match _ with Some _ => _ | None => _ end))) _ _ =>
      apply hoare_seq_lift_total; [apply game_date_total|intros ? ?]
  | |- hoare _ (mbind _ (lift _)) _ _ =>
      apply hoare_seq_lift; [solve_exn|intros ? ?; hsplit_pairs]
  | |- hoare _ (mbind _ (modify_player _ _)) _ _ =>
      apply hoare_seq_modify_frame; [solve_frame|]
  | |- hoare _ (modify_player _ _) _ _ =>
      apply hoare_modify_frame; solve_frame
  | |- hoare _ (mbind _ (append_game _)) _ _ =>
      apply hoare_seq_append_game
  end.

Ltac frame_refl :=
  unfold ignores; intros;
  first [ reflexivity
        | unfold update_rating_extremes; repeat case_match; reflexivity
        | repeat case_match; reflexivity ].

Section Frames.
Context {V : Type} (delta : Player.t -> V) (kf ir : Z).

Lemma hoare_seq_glicko {B} m a b s (k : unit -> M B) Q E :
  (forall f, ignores delta (Player.set_glicko_rating f)) ->
  (forall f, ignores delta (Player.set_glicko_deviation f)) ->
  (forall f, ignores delta (Player.set_glicko_volatility f)) ->
  (forall st, sees delta kf ir m st -> E st) ->
  hoare (sees delta kf ir m) (k tt) Q E ->
  hoare (sees delta kf ir m) (update_glicko2_ratings a b s ≫= k) Q E.
Proof.
  intros H1 H2 H3 HE Hk.
  apply hoare_seq with (R := sees delta kf ir m); [|intros []; exact Hk].
  unfold update_glicko2_ratings.
  repeat hframe_step ltac:(exact HE) ltac:(first [apply H1|apply H2|apply H3]).
Qed.

Lemma hoare_seq_uscf {B} m a b s (k : unit -> M B) Q E :
  (forall f, ignores delta (Player.set_uscf_rating f)) ->
  (forall f, ignores delta (Player.set_uscf_games f)) ->
  (forall st, sees delta kf ir m st -> E st) ->
  hoare (sees delta kf ir m) (k tt) Q E ->
  hoare (sees delta kf ir m) (update_uscf_ratings a b s ≫= k) Q E.
Proof.
  intros H1 H2 HE Hk.
  apply hoare_seq with (R := sees delta kf ir m); [|intros []; exact Hk].
  unfold update_uscf_ratings.
  repeat hframe_step ltac:(exact HE) ltac:(first [apply H1|apply H2]).
Qed.

End Frames.


(** One step through a write that changes the view by [g]. *)
Ltac hview_step g solve_side :=
  hnorm;
  lazymatch goal with
  | |- hoare (sees ?d ?kf ?ir ?m) (mbind ?k (modify_player ?a ?f)) _ _ =>
      apply (hoare_seq_modify_view d kf ir m a f g k); [solve_side|]
  | |- hoare (sees ?d ?kf ?ir ?m) (modify_player ?a ?f) _ _ =>
      apply (hoare_modify_view_post d kf ir m a f g); [solve_side|]
  end.

(** *** The loop over the lines *)

Lemma process_lines_indexed (J : Z -> system -> Prop) :
  (forall line n,
     hoare (J n) (process_game line n) (fun _ => J (n + 1))
       (fun st => exists n', J n' st)) ->
  forall lines n,
    hoare (J n) (process_lines lines n) (fun _ st => exists n', J n' st)
      (fun st => exists n', J n' st).
Proof.
  intros Hstep lines. induction lines as [|line lines IH]; intros n.
  - apply hoare_return. eauto.
  - simpl. eapply hoare_bind; [apply Hstep|]. intros ?. apply IH.
Qed.

Lemma after_prefix_indexed (J : Z -> system -> Prop) kf ir :
  J 1 (new_system kf ir) ->
  (forall line n,
     hoare (J n) (process_game line n) (fun _ => J (n + 1))
       (fun st => exists n', J n' st)) ->
  forall lines k, exists n', J n' (after_prefix kf ir lines k).
Proof.
  intros H0 Hstep lines k. unfold after_prefix, load_games.
  pose proof (process_lines_indexed J Hstep (take k lines) 1 _ H0) as H.
  destruct (process_lines (take k lines) 1 (new_system kf ir)) as [st [[]|e]];
    exact H.
Qed.

Lemma after_prefix_invariant (J : system -> Prop) kf ir :
  J (new_system kf ir) ->
  (forall line n, hoare J (process_game line n) (fun _ => J) J) ->
  forall lines k, J (after_prefix kf ir lines k).
Proof.
  intros H0 Hstep lines k.
  destruct (after_prefix_indexed (fun _ => J) kf ir H0) with (lines := lines) (k := k)
    as [_ H]; [|exact H].
  intros line n. eapply hoare_post; [| |apply Hstep]; simpl; eauto.
Qed.

Lemma keeps_lookup {V} (delta : Player.t -> V) kf ir inv st name p :
  keeps delta kf ir inv st -> players st !! name = Some p ->
  view delta st !! name = Some (delta p).
Proof. intros _ Hp. unfold view. by rewrite lookup_fmap, Hp. Qed.

Lemma keeps_new_system {V} (delta : Player.t -> V) kf ir
    (inv : gmap string V -> Prop) :
  inv ∅ -> keeps delta kf ir inv (new_system kf ir).
Proof.
  intros H. repeat split. unfold view. simpl. by rewrite fmap_empty.
Qed.
Lemma all_zero_init_view delta ir a m :
  delta (new_player ir a) = 0 -> all_zero m -> all_zero (init_view delta ir a m).
Proof.
  intros Hd Hm. unfold init_view. destruct (m !! a) eqn:Ha; [exact Hm|].
  intros name v. rewrite lookup_insert. case_decide; [|apply Hm].
  intros [= <-]. exact Hd.
Qed.

Lemma process_game_balance line game_number kf ir m :
  all_zero m ->
  hoare (sees balance kf ir m) (process_game line game_number)
    (fun _ => keeps balance kf ir all_zero) (keeps balance kf ir all_zero).
Proof.
  intros Hm. unfold process_game.
  destruct (split_line line) as [[[[w b] result] date_str]|]. 
  2: { apply hoare_return. intros st (? & ? & <-). by repeat split. }
  apply hoare_seq_init. apply hoare_seq_init.
  set (m0 := init_view _ _ _ _).
  assert (Hm0 : all_zero m0) by (do 2 (apply all_zero_init_view; [reflexivity|]); exact Hm).
  clearbody m0. clear m Hm.
  assert (HE : forall st, sees balance kf ir m0 st -> keeps balance kf ir all_zero st).
  { intros st (? & ? & <-). by repeat split. }
  destruct (parse_game_result result) as [[white_score black_score]|].
  2: { apply hoare_return. exact HE. }
  do 7 hframe_step ltac:(exact HE) frame_refl.
  apply hoare_seq_glicko; [frame_refl..|exact HE|].
  apply hoare_seq_uscf; [frame_refl..|exact HE|].
  do 2 hframe_step ltac:(exact HE) frame_refl.
  hnorm.
  apply hoare_seq with (R := sees balance kf ir m0).
  { repeat hframe_step ltac:(exact HE) frame_refl. }
  intros _.
  do 2 hview_step (fun v : Z => v + 1) ltac:(intros p; unfold balance; simpl; lia).
  apply hoare_seq with (R := keeps balance kf ir all_zero).
  { repeat case_match;
      do 2 hview_step (fun v : Z => v - 1) ltac:(intros p; unfold balance; simpl; lia);
      (intros st; apply sees_keeps);
      intros name v; rewrite !lookup_alter_fmap;
      destruct (m0 !! name) as [v0|] eqn:Hv0; simpl; try done;
      intros [= <-]; apply Hm0 in Hv0; subst v0;
      repeat case_decide; subst; unfold id; try lia; congruence. }
  intros _. apply hoare_keeps_pre. intros m1 Hm1.
  assert (HE1 : forall st, sees balance kf ir m1 st -> keeps balance kf ir all_zero st)
    by (intros st; by apply sees_keeps).
  repeat hframe_step ltac:(exact HE1) frame_refl.
  intros st Hst. exact (HE1 st Hst).
Qed.

(** C7: after any prefix of the log, every player's game counter is the sum
    of the player's wins, draws and losses. *)
Theorem games_eq_wins_draws_losses kf ir lines k name p :
  players (after_prefix kf ir lines k) !! name = Some p ->
  Player.games p = Player.wins p + Player.draws p + Player.losses p.
Proof.
  intros Hp.
  assert (H : keeps balance kf ir all_zero (after_prefix kf ir lines k)).
  { apply after_prefix_invariant.
    - apply keeps_new_system. intros ? ?. by rewrite lookup_empty.
    - intros line n. apply hoare_keeps_pre. intros m Hm.
      by apply process_game_balance. }
  pose proof (keeps_lookup _ _ _ _ _ _ _ H Hp) as Hv.
  destruct H as (_ & _ & H). apply H in Hv. unfold balance in Hv. lia.
Qed.

Lemma all_zero_alter_back (m : gmap string Z) w b :
  all_zero m ->
  all_zero (alter (fun v => v - 1) b (alter (fun v => v - 1) w
             (alter (fun v => v + 1) b (alter (fun v => v + 1) w m)))).
Proof.
  intros Hm name v. rewrite !lookup_alter_fmap.
  destruct (m !! name) as [v0|] eqn:Hv0; simpl; [|done].
  intros [= <-]. apply Hm in Hv0. subst v0.
  repeat case_decide; subst; unfold id; try lia; congruence.
Qed.

Lemma process_game_counter_gap line game_number kf ir m :
  all_zero m ->
  hoare (sees counter_gap kf ir m) (process_game line game_number)
    (fun _ => keeps counter_gap kf ir all_zero)
    (keeps counter_gap kf ir all_zero).
Proof.
  intros Hm. unfold process_game.
  destruct (split_line line) as [[[[w b] result] date_str]|].
  2: { apply hoare_return. intros st. by apply sees_keeps. }
  do 2 apply hoare_seq_init.
  set (m0 := init_view _ _ _ _).
  assert (Hm0 : all_zero m0)
    by (do 2 (apply all_zero_init_view; [reflexivity|]); exact Hm).
  clearbody m0. clear m Hm.
  assert (HE : forall st, sees counter_gap kf ir m0 st ->
                          keeps counter_gap kf ir all_zero st)
    by (intros st; by apply sees_keeps).
  destruct (parse_game_result result) as [[white_score black_score]|].
  2: { apply hoare_return. exact HE. }
  do 7 hframe_step ltac:(exact HE) frame_refl.
  apply hoare_seq_glicko; [frame_refl..|exact HE|].
  unfold update_uscf_ratings.
  repeat hframe_step ltac:(exact HE) frame_refl.
  hview_step (fun v : Z => v + 1) ltac:(intros p; unfold counter_gap; simpl; lia).
  repeat hframe_step ltac:(exact HE) frame_refl.
  hview_step (fun v : Z => v + 1) ltac:(intros p; unfold counter_gap; simpl; lia).
  repeat hframe_step ltac:(fail) frame_refl.
  do 2 hview_step (fun v : Z => v - 1)
    ltac:(intros p; unfold counter_gap; simpl; lia).
  pose proof (all_zero_alter_back m0 w b Hm0) as Hm1.
  match type of Hm1 with all_zero ?m => set (m1 := m) in * end.
  clearbody m1.
  assert (HE1 : forall st, sees counter_gap kf ir m1 st ->
                           keeps counter_gap kf ir all_zero st)
    by (intros st; by apply sees_keeps).
  repeat hframe_step ltac:(exact HE1) frame_refl.
  intros st Hst. exact (HE1 st Hst).
Qed.

Lemma counters_equal_after_prefix kf ir lines k name p :
  players (after_prefix kf ir lines k) !! name = Some p ->
  Player.uscf_games p = Player.games p.
Proof.
  intros Hp.
  assert (H : keeps counter_gap kf ir all_zero (after_prefix kf ir lines k)).
  { apply after_prefix_invariant.
    - apply keeps_new_system. intros ? ?. by rewrite lookup_empty.
    - intros line n. apply hoare_keeps_pre. intros m Hm.
      by apply process_game_counter_gap. }
  pose proof (keeps_lookup _ _ _ _ _ _ _ H Hp) as Hv.
  destruct H as (_ & _ & H). apply H in Hv. unfold counter_gap in Hv. lia.
Qed.

(** *** Head-to-head tallies *)

Lemma head_to_head_alter m a o f P O :
  head_to_head (alter (alter f o) a m) P O
  = (if decide (P = a /\ O = o) then f else id) <$> head_to_head m P O.
Proof.
  unfold head_to_head. rewrite lookup_alter_fmap.
  destruct (m !! P) as [row|]; simpl; [|done].
  destruct (decide (a = P)) as [->|Hne]; simpl.
  - rewrite lookup_alter_fmap.
    destruct (decide (o = O)) as [->|]; case_decide; try tauto;
      try done; naive_solver.
  - case_decide; [naive_solver|]. by destruct (row !! O).
Qed.

Lemma head_to_head_ensure m a o P O :
  is_Some (m !! a) ->
  head_to_head (alter (ensure_tally o) a m) P O
  = if decide (P = a /\ O = o)
    then Some (default (Tally.mk 0 0 0 0) (head_to_head m a o))
    else head_to_head m P O.
Proof.
  intros [row0 Ha]. unfold head_to_head. rewrite lookup_alter_fmap.
  destruct (decide (a = P)) as [<-|Hne].
  - rewrite Ha. simpl. unfold ensure_tally.
    destruct (row0 !! o) as [t|] eqn:Ho.
    + case_decide as Hd; [destruct Hd as [_ ->]; by rewrite Ho|done].
    + rewrite lookup_insert. destruct (decide (o = O)) as [->|];
        case_decide; naive_solver.
  - case_decide; [naive_solver|]. by destruct (m !! P).
Qed.

Lemma alter_is_Some {V} (g : V -> V) a (m : gmap string V) name :
  is_Some (alter g a m !! name) <-> is_Some (m !! name).
Proof. rewrite lookup_alter_fmap. by rewrite fmap_is_Some. Qed.

Lemma init_view_is_Some {V} (delta : Player.t -> V) ir a m name :
  is_Some (m !! name) \/ name = a ->
  is_Some (init_view delta ir a m !! name).
Proof.
  unfold init_view. intros [H| ->].
  - destruct (m !! a); [exact H|]. rewrite lookup_insert. case_decide; eauto.
  - destruct (m !! a) eqn:Ha; [by rewrite Ha|]. rewrite lookup_insert_eq. eauto.
Qed.

Lemma symmetric_init_view ir a m :
  symmetric m -> symmetric (init_view Player.opponents ir a m).
Proof.
  intros Hm. unfold init_view. destruct (m !! a) eqn:Ha; [exact Hm|].
  assert (Hrow : forall O, head_to_head m O a = None).
  { intros O. rewrite Hm. unfold head_to_head at 1. by rewrite Ha. }
  intros P O. unfold head_to_head.
  destruct (decide (a = O)) as [<-|HO], (decide (a = P)) as [<-|HP].
  - rewrite lookup_insert_eq. simpl. by rewrite lookup_empty.
  - rewrite lookup_insert_eq, lookup_insert_ne by done. simpl.
    rewrite lookup_empty. specialize (Hrow P). unfold head_to_head in Hrow.
    by rewrite Hrow.
  - rewrite lookup_insert_eq, lookup_insert_ne by done. simpl.
    rewrite lookup_empty. specialize (Hrow O). unfold head_to_head in Hrow.
    by rewrite Hrow.
  - rewrite !lookup_insert_ne by done. apply Hm.
Qed.

(** The tally of one cell after the six writes of one game. *)
Lemma head_to_head_game m w b (f1 f2 : Tally.t -> Tally.t) P O :
  is_Some (m !! w) -> is_Some (m !! b) ->
  let G := Tally.set_games (fun n => n + 1) in
  let z := Tally.mk 0 0 0 0 in
  head_to_head
    (alter (alter f2 w) b (alter (alter f1 b) w
      (alter (alter G w) b (alter (alter G b) w
        (alter (ensure_tally w) b (alter (ensure_tally b) w m)))))) P O
  = if decide (P = w /\ O = b) then
      if decide (w = b)
      then Some (f2 (f1 (G (G (default z (head_to_head m w b))))))
      else Some (f1 (G (default z (head_to_head m w b))))
    else if decide (P = b /\ O = w)
         then Some (f2 (G (default z (head_to_head m b w))))
         else head_to_head m P O.
Proof.
  intros Hw Hb G z.
  assert (Hb1 : is_Some (alter (ensure_tally b) w m !! b))
    by (by apply alter_is_Some).
  rewrite !head_to_head_alter, !(head_to_head_ensure _ b w) by exact Hb1.
  rewrite !(head_to_head_ensure _ w b) by exact Hw.
  destruct (decide (w = b)) as [->|Hne];
    repeat case_decide; simpl;
    solve [ reflexivity
          | destruct (head_to_head m P O); reflexivity
          | exfalso; naive_solver ].
Qed.

(** The six writes of one game keep the tallies symmetric. *)
Lemma symmetric_game m w b (f1 f2 : Tally.t -> Tally.t) :
  is_Some (m !! w) -> is_Some (m !! b) ->
  (forall t, f2 (mirror t) = mirror (f1 t)) ->
  (forall t, f1 (mirror t) = mirror (f2 t)) ->
  (forall t, f1 (f2 t) = f2 (f1 t)) ->
  symmetric m ->
  symmetric
    (alter (alter f2 w) b (alter (alter f1 b) w
      (alter (alter (Tally.set_games (fun n => n + 1)) w) b
        (alter (alter (Tally.set_games (fun n => n + 1)) b) w
          (alter (ensure_tally w) b (alter (ensure_tally b) w m)))))).
Proof.
  intros Hw Hb H12 H21 Hcomm Hm P O.
  rewrite !head_to_head_game by assumption.
  set (G := Tally.set_games (fun n => n + 1)).
  set (z := Tally.mk 0 0 0 0).
  assert (HG : forall t, G (mirror t) = mirror (G t)) by (by intros []).
  assert (Hz : forall x, default z (mirror <$> x) = mirror (default z x))
    by (by intros [|]).
  pose proof (Hm w b) as Hwb.
  destruct (decide (w = b)) as [->|Hne].
  - destruct (decide (P = b /\ O = b)) as [[-> ->]|HP].
    + rewrite !decide_True by done.
      rewrite Hwb at 1. rewrite Hz, !HG, H21, H12. simpl.
      do 2 f_equal. apply Hcomm.
    + rewrite !(decide_False (P := O = b /\ P = b)) by (intros [? ?]; tauto).
      apply Hm.
  - destruct (decide (P = w /\ O = b)) as [[-> ->]|H1];
      [|destruct (decide (P = b /\ O = w)) as [[-> ->]|H2]];
      repeat first
        [ rewrite decide_True by (done || (split; done))
        | rewrite decide_False by (done || (intros [? ?]; (congruence || tauto))) ];
      [rewrite Hwb, Hz, HG, H12; reflexivity
      |rewrite Hwb, Hz, HG, H12; simpl; f_equal;
       by destruct (f1 (G (default z (head_to_head m w b))))
      |apply Hm].
Qed.

Lemma process_game_symmetric line game_number kf ir m :
  symmetric m ->
  hoare (sees Player.opponents kf ir m) (process_game line game_number)
    (fun _ => keeps Player.opponents kf ir symmetric)
    (keeps Player.opponents kf ir symmetric).
Proof.
  intros Hm. unfold process_game.
  destruct (split_line line) as [[[[w b] result] date_str]|].
  2: { apply hoare_return. intros st. by apply sees_keeps. }
  do 2 apply hoare_seq_init.
  set (m0 := init_view _ _ _ _).
  assert (Hm0 : symmetric m0) by (by do 2 apply symmetric_init_view).
  assert (Hw : is_Some (m0 !! w))
    by (apply init_view_is_Some; left; apply init_view_is_Some; by right).
  assert (Hb : is_Some (m0 !! b)) by (apply init_view_is_Some; by right).
  clearbody m0. clear m Hm.
  assert (HE : forall st, sees Player.opponents kf ir m0 st ->
                          keeps Player.opponents kf ir symmetric st)
    by (intros st; by apply sees_keeps).
  destruct (parse_game_result result) as [[white_score black_score]|].
  2: { apply hoare_return. exact HE. }
  do 7 hframe_step ltac:(exact HE) frame_refl.
  apply hoare_seq_glicko; [frame_refl..|exact HE|].
  apply hoare_seq_uscf; [frame_refl..|exact HE|].
  repeat hframe_step ltac:(exact HE) frame_refl.
  hview_step (ensure_tally b) ltac:(intros p; reflexivity).
  hview_step (ensure_tally w) ltac:(intros p; reflexivity).
  hview_step (alter (M := gmap string Tally.t) (Tally.set_games (fun n => n + 1)) b)
    ltac:(intros p; reflexivity).
  hview_step (alter (M := gmap string Tally.t) (Tally.set_games (fun n => n + 1)) w)
    ltac:(intros p; reflexivity).
  hnorm. apply hoare_seq with (R := keeps Player.opponents kf ir symmetric).
  { destruct (white_score =? 1)%float; [|destruct (black_score =? 1)%float].
    - hview_step (alter (M := gmap string Tally.t) (Tally.set_wins (fun n => n + 1)) b)
        ltac:(intros p; reflexivity).
      hview_step (alter (M := gmap string Tally.t) (Tally.set_losses (fun n => n + 1)) w)
        ltac:(intros p; reflexivity).
      intros st. apply sees_keeps.
      apply symmetric_game; try assumption; by intros [].
    - hview_step (alter (M := gmap string Tally.t) (Tally.set_losses (fun n => n + 1)) b)
        ltac:(intros p; reflexivity).
      hview_step (alter (M := gmap string Tally.t) (Tally.set_wins (fun n => n + 1)) w)
        ltac:(intros p; reflexivity).
      intros st. apply sees_keeps.
      apply symmetric_game; try assumption; by intros [].
    - hview_step (alter (M := gmap string Tally.t) (Tally.set_draws (fun n => n + 1)) b)
        ltac:(intros p; reflexivity).
      hview_step (alter (M := gmap string Tally.t) (Tally.set_draws (fun n => n + 1)) w)
        ltac:(intros p; reflexivity).
      intros st. apply sees_keeps.
      apply symmetric_game; try assumption; by intros []. }
  intros _. apply hoare_keeps_pre. intros m1 Hm1.
  assert (HE1 : forall st, sees Player.opponents kf ir m1 st ->
                           keeps Player.opponents kf ir symmetric st)
    by (intros st; by apply sees_keeps).
  repeat hframe_step ltac:(exact HE1) frame_refl.
  intros st Hst. exact (HE1 st Hst).
Qed.

(** C10: after any prefix of the log the head-to-head tallies are symmetric:
    when a player [P] has a tally for [O], then [O] is a player and has a
    tally for [P], with the same number of games and draws and with wins and
    losses exchanged. *)
Theorem head_to_head_symmetric kf ir lines k P O pP t :
  players (after_prefix kf ir lines k) !! P = Some pP ->
  Player.opponents pP !! O = Some t ->
  exists pO t',
    players (after_prefix kf ir lines k) !! O = Some pO /\
    Player.opponents pO !! P = Some t' /\
    Tally.games t' = Tally.games t /\
    Tally.wins t' = Tally.losses t /\
    Tally.losses t' = Tally.wins t /\
    Tally.draws t' = Tally.draws t.
Proof.
  intros HP Ht.
  assert (H : keeps Player.opponents kf ir symmetric (after_prefix kf ir lines k)).
  { apply after_prefix_invariant.
    - apply keeps_new_system. intros ? ?. unfold head_to_head.
      by rewrite !lookup_empty.
    - intros line n. apply hoare_keeps_pre. intros m Hm.
      by apply process_game_symmetric. }
  destruct H as (_ & _ & H). specialize (H P O).
  unfold head_to_head, view in H. rewrite !lookup_fmap, HP in H. simpl in H.
  rewrite Ht in H. simpl in H.
  destruct (players (after_prefix kf ir lines k) !! O) as [pO|]; [|discriminate].
  simpl in H. exists pO, (mirror t). repeat split; try done.
Qed.

(** *** The lists of notable results *)

Lemma insert_desc_Forall (P : Notable.t -> Prop) y l :
  Forall P (insert_desc y l) <-> P y /\ Forall P l.
Proof.
  induction l as [|z l IH]; simpl.
  - rewrite Forall_singleton. rewrite Forall_nil. tauto.
  - destruct (sort_key z >? sort_key y).
    + rewrite !Forall_cons, IH. tauto.
    + rewrite !Forall_cons. tauto.
Qed.

Lemma insert_desc_length y l : length (insert_desc y l) = S (length l).
Proof.
  induction l as [|z l IH]; simpl; [done|].
  destruct (sort_key z >? sort_key y); simpl; by rewrite ?IH.
Qed.

Lemma insert_desc_sorted y l :
  StronglySorted notable_before l ->
  Forall (earlier_on_tie y) l ->
  StronglySorted notable_before (insert_desc y l).
Proof.
  induction l as [|z l IH]; intros Hs Ht; simpl.
  - repeat constructor.
  - apply StronglySorted_inv in Hs as [Hs Hz].
    apply Forall_cons in Ht as [Htz Ht].
    destruct (sort_key z >? sort_key y) eqn:Hk.
    + constructor; [by apply IH|].
      apply insert_desc_Forall. split; [|exact Hz].
      left. unfold sort_key in Hk. lia.
    + constructor; [by constructor|].
      assert (Hyz : notable_before y z).
      { unfold notable_before, earlier_on_tie, sort_key in *. lia. }
      constructor; [exact Hyz|].
      rewrite Forall_forall in Hz, Ht. apply Forall_forall. intros u Hu.
      specialize (Hz u Hu). specialize (Ht u Hu).
      unfold notable_before, earlier_on_tie, sort_key in *. lia.
Qed.

Lemma foldr_insert_desc_Forall (P : Notable.t -> Prop) l acc :
  Forall P (foldr insert_desc acc l) <-> Forall P l /\ Forall P acc.
Proof.
  induction l as [|y l IH]; simpl.
  - rewrite Forall_nil. tauto.
  - rewrite insert_desc_Forall, Forall_cons, IH. tauto.
Qed.

Lemma foldr_insert_desc_length l acc :
  length (foldr insert_desc acc l) = (length l + length acc)%nat.
Proof.
  induction l as [|y l IH]; simpl; [done|]. by rewrite insert_desc_length, IH.
Qed.

Lemma foldr_insert_desc_sorted l acc :
  StronglySorted notable_before acc ->
  StronglySorted earlier_on_tie l ->
  Forall (fun y => Forall (earlier_on_tie y) acc) l ->
  StronglySorted notable_before (foldr insert_desc acc l).
Proof.
  intros Hacc. induction l as [|y l IH]; intros Hl Hla; simpl; [exact Hacc|].
  apply StronglySorted_inv in Hl as [Hl Hy].
  apply Forall_cons in Hla as [Hya Hla].
  apply insert_desc_sorted; [by apply IH|].
  apply foldr_insert_desc_Forall. by split.
Qed.

Lemma StronglySorted_take {A} (R : A -> A -> Prop) n l :
  StronglySorted R l -> StronglySorted R (take n l).
Proof.
  intros Hs. revert n. induction Hs as [|x l Hs IH Hx]; intros [|n]; simpl;
    try constructor; [apply IH|by apply Forall_take].
Qed.

Lemma StronglySorted_weaken {A} (R R' : A -> A -> Prop) l :
  (forall a b, R a b -> R' a b) -> StronglySorted R l -> StronglySorted R' l.
Proof.
  intros HR Hs. induction Hs as [|x l Hs IH Hx]; constructor; [exact IH|].
  eapply Forall_impl; [exact Hx|]. simpl. auto.
Qed.

(** One update of a list of notable results by the record of game [n]. *)
Lemma notable_ok_update n l x :
  notable_ok n l -> Notable.game_number x = n ->
  notable_ok (n + 1) (take 5 (sort_desc (l ++ [x]))).
Proof.
  intros (Hlen & Hs & Hb) Hx. unfold sort_desc. rewrite foldr_app. simpl.
  repeat split.
  - rewrite length_take. lia.
  - apply StronglySorted_take. apply foldr_insert_desc_sorted.
    + repeat constructor.
    + eapply StronglySorted_weaken; [|exact Hs].
      unfold notable_before, earlier_on_tie. intros; lia.
    + eapply Forall_impl; [exact Hb|]. simpl. intros y Hy.
      constructor; [|constructor]. unfold earlier_on_tie. lia.
  - apply Forall_take. apply foldr_insert_desc_Forall. split.
    + eapply Forall_impl; [exact Hb|]. simpl. intros; lia.
    + constructor; [lia|constructor].
Qed.

Lemma notable_ok_mono n n' l : n <= n' -> notable_ok n l -> notable_ok n' l.
Proof.
  intros Hn (Hlen & Hs & Hb). repeat split; try done.
  eapply Forall_impl; [exact Hb|]. simpl. intros; lia.
Qed.

Lemma notable_inv_mono nw nu nw' nu' m :
  nw <= nw' -> nu <= nu' -> notable_inv nw nu m -> notable_inv nw' nu' m.
Proof.
  intros Hw Hu Hm name v Hv. destruct (Hm name v Hv).
  split; eapply notable_ok_mono; eauto.
Qed.

Lemma notable_inv_wins n nu m a x :
  notable_inv n nu m -> Notable.game_number x = n ->
  notable_inv (n + 1) nu
    (alter (fun v => (take 5 (sort_desc (v.1 ++ [x])), v.2)) a m).
Proof.
  intros Hm Hx name v. rewrite lookup_alter_fmap.
  destruct (m !! name) as [v0|] eqn:Hv0; simpl; [|done].
  intros [= <-]. destruct (Hm name v0 Hv0) as [H1 H2].
  case_decide; simpl; unfold id.
  - split; [by apply notable_ok_update|exact H2].
  - split; [|exact H2]. eapply notable_ok_mono; [|exact H1]. lia.
Qed.

Lemma notable_inv_upsets nw n m a x :
  notable_inv nw n m -> Notable.game_number x = n ->
  notable_inv nw (n + 1)
    (alter (fun v => (v.1, take 5 (sort_desc (v.2 ++ [x])))) a m).
Proof.
  intros Hm Hx name v. rewrite lookup_alter_fmap.
  destruct (m !! name) as [v0|] eqn:Hv0; simpl; [|done].
  intros [= <-]. destruct (Hm name v0 Hv0) as [H1 H2].
  case_decide; simpl; unfold id.
  - split; [exact H1|by apply notable_ok_update].
  - split; [exact H1|]. eapply notable_ok_mono; [|exact H2]. lia.
Qed.

Lemma notable_inv_init_view nw nu ir a m :
  notable_inv nw nu m -> notable_inv nw nu (init_view notable_lists ir a m).
Proof.
  intros Hm. unfold init_view. destruct (m !! a) eqn:Ha; [exact Hm|].
  intros name v. rewrite lookup_insert. case_decide; [|apply Hm].
  intros [= <-]. simpl. split; (split; [simpl; lia|split; constructor]).
Qed.

Ltac hnotable_step :=
  hnorm;
  lazymatch goal with
  | |- hoare _ (mbind _ (modify_player ?a (update_biggest_wins ?x))) _ _ =>
      hview_step (fun v : list Notable.t * list Notable.t =>
                    (take 5 (sort_desc (v.1 ++ [x])), v.2))
        ltac:(intros p; reflexivity)
  | |- hoare _ (modify_player ?a (update_biggest_wins ?x)) _ _ =>
      hview_step (fun v : list Notable.t * list Notable.t =>
                    (take 5 (sort_desc (v.1 ++ [x])), v.2))
        ltac:(intros p; reflexivity)
  | |- hoare _ (mbind _ (modify_player ?a (update_biggest_upsets ?x))) _ _ =>
      hview_step (fun v : list Notable.t * list Notable.t =>
                    (v.1, take 5 (sort_desc (v.2 ++ [x]))))
        ltac:(intros p; reflexivity)
  | |- hoare _ (modify_player ?a (update_biggest_upsets ?x)) _ _ =>
      hview_step (fun v : list Notable.t * list Notable.t =>
                    (v.1, take 5 (sort_desc (v.2 ++ [x]))))
        ltac:(intros p; reflexivity)
  | _ => hframe_step ltac:(fail) frame_refl
  end.

Lemma process_game_notable line n kf ir m :
  notable_inv n n m ->
  hoare (sees notable_lists kf ir m) (process_game line n)
    (fun _ => keeps notable_lists kf ir (notable_inv (n + 1) (n + 1)))
    (keeps notable_lists kf ir (notable_inv (n + 1) (n + 1))).
Proof.
  intros Hm. unfold process_game.
  assert (Hmono : forall m', notable_inv n n m' ->
            forall st, sees notable_lists kf ir m' st ->
                       keeps notable_lists kf ir (notable_inv (n + 1) (n + 1)) st).
  { intros m' Hm' st. apply sees_keeps.
    eapply notable_inv_mono; [| |exact Hm']; lia. }
  destruct (split_line line) as [[[[w b] result] date_str]|].
  2: { apply hoare_return. by apply Hmono. }
  do 2 apply hoare_seq_init.
  set (m0 := init_view _ _ _ _).
  assert (Hm0 : notable_inv n n m0) by (by do 2 apply notable_inv_init_view).
  clearbody m0. clear m Hm.
  pose proof (Hmono m0 Hm0) as HE.
  destruct (parse_game_result result) as [[white_score black_score]|].
  2: { apply hoare_return. exact HE. }
  do 7 hframe_step ltac:(exact HE) frame_refl.
  apply hoare_seq_glicko; [frame_refl..|exact HE|].
  apply hoare_seq_uscf; [frame_refl..|exact HE|].
  do 2 hframe_step ltac:(exact HE) frame_refl.
  hnorm.
  apply hoare_seq
    with (R := keeps notable_lists kf ir (notable_inv (n + 1) (n + 1))).
  { destruct (white_score =? 1)%float; [|destruct (black_score =? 1)%float].
    - destruct (x0 >? x); repeat hnotable_step; [|exact HE].
      intros st. apply sees_keeps.
      by apply notable_inv_upsets; [apply notable_inv_wins|].
    - destruct (x >? x0); repeat hnotable_step; [|exact HE].
      intros st. apply sees_keeps.
      by apply notable_inv_upsets; [apply notable_inv_wins|].
    - apply hoare_return. exact HE. }
  intros _. apply hoare_keeps_pre. intros m1 Hm1.
  assert (HE1 : forall st, sees notable_lists kf ir m1 st ->
      keeps notable_lists kf ir (notable_inv (n + 1) (n + 1)) st)
    by (intros st; by apply sees_keeps).
  repeat hframe_step ltac:(exact HE1) frame_refl.
  intros st Hst. exact (HE1 st Hst).
Qed.

(** C8: after any prefix of the log, each of a player's two lists of notable
    results has at most 5 entries and is sorted by descending rating gap,
    entries of equal gap standing in the order of their games (the order in
    which they were appended). *)
Theorem biggest_lists_bounded_sorted kf ir lines k name p :
  players (after_prefix kf ir lines k) !! name = Some p ->
  (length (Player.biggest_wins p) <= 5)%nat
  /\ StronglySorted notable_before (Player.biggest_wins p)
  /\ (length (Player.biggest_upsets p) <= 5)%nat
  /\ StronglySorted notable_before (Player.biggest_upsets p).
Proof.
  intros Hp.
  destruct (after_prefix_indexed
    (fun n => keeps notable_lists kf ir (notable_inv n n)) kf ir)
    with (lines := lines) (k := k) as [n' H].
  - apply keeps_new_system. intros ? ?. by rewrite lookup_empty.
  - intros line n. apply hoare_keeps_pre. intros m Hm.
    eapply hoare_post; [| |by apply process_game_notable]; simpl; eauto.
  - pose proof (keeps_lookup _ _ _ _ _ _ _ H Hp) as Hv.
    destruct H as (_ & _ & H). apply H in Hv. simpl in Hv.
    destruct Hv as [(? & ? & _) (? & ? & _)]. auto.
Qed.

(** *** The ELO update *)

Lemma calculate_elo_change_config (s1 s2 : system) rating_a rating_b score_a :
  k_factor s1 = k_factor s2 ->
  calculate_elo_change s1 rating_a rating_b score_a
  = calculate_elo_change s2 rating_a rating_b score_a.
Proof. intros H. unfold calculate_elo_change. by rewrite H. Qed.

Lemma init_view_lookup_before {V} (delta : Player.t -> V) st w b name :
  init_view delta (initial_rating st) b
    (init_view delta (initial_rating st) w (view delta st)) !! name
  = if decide (name = w \/ name = b)
    then Some (delta (player_before st name))
    else delta <$> players st !! name.
Proof.
  unfold player_before, init_view, view.
  rewrite !lookup_fmap.
  destruct (players st !! w) as [pw|] eqn:Hw; simpl.
  - rewrite lookup_fmap.
    destruct (players st !! b) as [pb|] eqn:Hb; simpl.
    + rewrite lookup_fmap. case_decide as Hd; [|done].
      destruct Hd as [-> | ->]; by rewrite ?Hw, ?Hb.
    + rewrite lookup_insert, lookup_fmap.
      destruct (decide (b = name)) as [<-|Hne].
      * rewrite decide_True by tauto. by rewrite Hb.
      * case_decide as Hd; [|done].
        destruct Hd as [-> | ->]; [by rewrite Hw|done].
  - rewrite lookup_insert.
    destruct (decide (w = b)) as [<-|Hwb]; simpl.
    + rewrite lookup_insert, lookup_fmap.
      destruct (decide (w = name)) as [<-|Hne].
      * rewrite decide_True by tauto. by rewrite Hw.
      * rewrite decide_False by (intros [|]; congruence). done.
    + rewrite lookup_fmap.
      destruct (players st !! b) as [pb|] eqn:Hb; simpl.
      * rewrite lookup_insert, lookup_fmap.
        destruct (decide (w = name)) as [<-|Hne].
        -- rewrite decide_True by tauto. by rewrite Hw.
        -- case_decide as Hd; [|done].
           destruct Hd as [-> | ->]; [done|by rewrite Hb].
      * rewrite !lookup_insert, lookup_fmap.
        destruct (decide (b = name)) as [<-|Hne].
        -- rewrite decide_True by tauto. by rewrite Hb.
        -- destruct (decide (w = name)) as [<-|Hne'].
           ++ rewrite decide_True by tauto. by rewrite Hw.
           ++ rewrite decide_False by (intros [|]; congruence). done.
Qed.

(** One step through a read of a quantity the view determines. *)
Ltac hread_step solve_lookup :=
  hnorm;
  lazymatch goal with
  | |- hoare (sees ?d ?kf ?ir ?m) (mbind _ (gets (fun st => _ (player_of st ?a)))) _ _ =>
      eapply hoare_seq_gets_val;
        [intros ? Hsees;
         eapply (sees_player_of d kf ir m a _ _ Hsees); solve_lookup|]
  end.

Lemma process_game_elo line n kf ir m w b result date_str ws bs rw rb :
  split_line line = Some (w, b, result, date_str) ->
  parse_game_result result = Some (ws, bs) ->
  init_view Player.rating ir b (init_view Player.rating ir w m) !! w = Some rw ->
  init_view Player.rating ir b (init_view Player.rating ir w m) !! b = Some rb ->
  hoare (sees Player.rating kf ir m) (process_game line n)
    (fun r st' => exists wc bc date,
       calculate_elo_change (new_system kf ir) rw rb ws = Ok wc
       /\ calculate_elo_change (new_system kf ir) rb rw bs = Ok bc
       /\ format_date_opt date_str = Ok date
       /\ sees Player.rating kf ir
            (alter (fun r => r + bc) b (alter (fun r => r + wc) w
               (init_view Player.rating ir b (init_view Player.rating ir w m))))
            st'
       /\ r = Some (Game.mk n w b result date date_str rw rb
                      (if decide (b = w) then rw + wc + bc else rw + wc)
                      (if decide (w = b) then rb + wc + bc else rb + bc)
                      wc bc))
    (fun _ => True).
Proof.
  intros Hsplit Hparse Hw Hb. unfold process_game. rewrite Hsplit.
  do 2 apply hoare_seq_init. rewrite Hparse.
  set (m0 := init_view _ _ _ _) in *. clearbody m0.
  hread_step ltac:(exact Hw).
  hread_step ltac:(exact Hb).
  hframe_step ltac:(fail) frame_refl.
  hframe_step ltac:(intros ? ?; exact Logic.I) frame_refl.
  hframe_step ltac:(intros ? ?; exact Logic.I) frame_refl.
  rename a into wc, a0 into bc.
  hview_step (fun r : Z => r + wc) ltac:(intros p; reflexivity).
  hview_step (fun r : Z => r + bc) ltac:(intros p; reflexivity).
  apply hoare_seq_glicko; [frame_refl..|intros ? ?; exact Logic.I|].
  apply hoare_seq_uscf; [frame_refl..|intros ? ?; exact Logic.I|].
  repeat first
    [ hread_step ltac:(rewrite !lookup_alter_fmap, ?Hw, ?Hb; reflexivity)
    | hframe_step ltac:(intros ? ?; exact Logic.I) frame_refl ].
  intros st Hst.
  match goal with Hd : format_date_opt date_str = Ok ?d |- _ =>
    exists wc, bc, d; rename Hd into Hdate end.
  split; [by rewrite (calculate_elo_change_config _ self)|].
  split; [by rewrite (calculate_elo_change_config _ self)|].
  split; [exact Hdate|]. split; [exact Hst|].
  do 2 f_equal; repeat case_decide; unfold id; try congruence; lia.
Qed.

Lemma sees_view {V} (delta : Player.t -> V) st :
  sees delta (k_factor st) (initial_rating st) (view delta st) st.
Proof. by repeat split. Qed.

Lemma hoare_run {A} (P : system -> Prop) (m : M A) Q E st st' a :
  hoare P m Q E -> P st -> m st = (st', Ok a) -> Q a st'.
Proof. intros H HP Hm. specialize (H st HP). by rewrite Hm in H. Qed.

Lemma float_of_int_32 : float_of_int 32 = Ok 32%float.
Proof. vm_compute. reflexivity. Qed.

(** C2 (amended): in a successfully parsed game the two ELO deltas are
    [round(32 * (score - 1 / (1 + 10 ** ((r_opponent - r_own) / 400))))], both
    computed from the two ratings found before the game; the game record
    carries these ratings and deltas; and when the two names differ each
    player's rating has increased by the player's own delta, while a player
    named on both sides has received both deltas. *)
Theorem elo_update_from_pregame_ratings st line n w b result date_str ws bs
    st' rec :
  split_line line = Some (w, b, result, date_str) ->
  parse_game_result result = Some (ws, bs) ->
  k_factor st = 32 ->
  process_game line n st = (st', Ok (Some rec)) ->
  let rw := Player.rating (player_before st w) in
  let rb := Player.rating (player_before st b) in
  let delta (r_own r_opponent : Z) (score : float) : res Z :=
    q ← int_truediv (r_opponent - r_own) 400;
    p ← math_pow 10 q;
    expected ← float_div 1 (1 + p);
    py_round (32 * (score - expected)) in
  delta rw rb ws = Ok (Game.white_change rec)
  /\ delta rb rw bs = Ok (Game.black_change rec)
  /\ Game.white_rating_before rec = rw
  /\ Game.black_rating_before rec = rb
  /\ (w <> b ->
      Player.rating (player_of st' w) = rw + Game.white_change rec
      /\ Player.rating (player_of st' b) = rb + Game.black_change rec)
  /\ (w = b ->
      Player.rating (player_of st' w)
      = rw + Game.white_change rec + Game.black_change rec).
Proof.
  intros Hsplit Hparse Hk Hrun rw rb delta.
  assert (Hw : init_view Player.rating (initial_rating st) b
                 (init_view Player.rating (initial_rating st) w
                    (view Player.rating st)) !! w = Some rw).
  { rewrite init_view_lookup_before. by rewrite decide_True by tauto. }
  assert (Hb : init_view Player.rating (initial_rating st) b
                 (init_view Player.rating (initial_rating st) w
                    (view Player.rating st)) !! b = Some rb).
  { rewrite init_view_lookup_before. by rewrite decide_True by tauto. }
  pose proof (hoare_run _ _ _ _ _ _ _
    (process_game_elo line n _ _ _ w b result date_str ws bs rw rb
       Hsplit Hparse Hw Hb) (sees_view Player.rating st) Hrun)
    as (wc & bc & date & Hwc & Hbc & _ & Hsees & Hrec).
  injection Hrec as ->. simpl.
  unfold calculate_elo_change in Hwc, Hbc. simpl in Hwc, Hbc.
  rewrite Hk, float_of_int_32 in Hwc, Hbc.
  assert (Hfin : forall name v,
    alter (fun r => r + bc) b (alter (fun r => r + wc) w
      (init_view Player.rating (initial_rating st) b
         (init_view Player.rating (initial_rating st) w
            (view Player.rating st)))) !! name = Some v ->
    Player.rating (player_of st' name) = v).
  { intros name v. eapply sees_player_of. exact Hsees. }
  repeat split.
  - exact Hwc.
  - exact Hbc.
  - apply Hfin. rewrite !lookup_alter_fmap, Hw. simpl.
    repeat case_decide; unfold id; congruence.
  - apply Hfin. rewrite !lookup_alter_fmap, Hb. simpl.
    repeat case_decide; unfold id; congruence.
  - intros ->. apply Hfin. rewrite !lookup_alter_fmap, Hw. simpl.
    repeat case_decide; unfold id; congruence.
Qed.

(** *** The USCF update *)

Ltac huscf_read Hlk :=
  hnorm;
  lazymatch goal with
  | |- hoare (sees ?d ?kf ?ir ?m) (mbind _ (gets (fun st => _ (player_of st ?a)))) _ _ =>
      eapply hoare_seq_gets_val;
        [let st := fresh "st" in
         let Hsees := fresh "Hsees" in
         let Hd := fresh "Hd" in
         let Hr := fresh "Hr" in
         let Hg := fresh "Hg" in
         intros st Hsees;
         pose proof (sees_player_of d kf ir m a _ st Hsees Hlk) as Hd;
         unfold uscf_state in Hd; injection Hd as Hr Hg;
         unfold get_uscf_k_factor; rewrite ?Hr, ?Hg; reflexivity|]
  end.

Lemma process_game_uscf line n kf ir m w b result date_str ws bs
    urw ugw urb ugb :
  split_line line = Some (w, b, result, date_str) ->
  parse_game_result result = Some (ws, bs) ->
  init_view uscf_state ir b (init_view uscf_state ir w m) !! w
    = Some (urw, ugw) ->
  init_view uscf_state ir b (init_view uscf_state ir w m) !! b
    = Some (urb, ugb) ->
  let k_of (r g : Z) := if g <? 20 then 40 else if r <? 2100 then 32 else 24 in
  hoare (sees uscf_state kf ir m) (process_game line n)
    (fun _ st' => exists ca cb,
       calculate_uscf_change urw urb ws (k_of urw ugw) = Ok ca
       /\ calculate_uscf_change urb urw (1 - ws) (k_of urb ugb) = Ok cb
       /\ sees uscf_state kf ir
            (alter (fun v => (v.1, v.2 + 1)) b
              (alter (fun v => (v.1, v.2 + 1)) w
                (alter (fun v => (v.1 + cb, v.2)) b
                  (alter (fun v => (v.1 + ca, v.2)) w
                    (init_view uscf_state ir b
                       (init_view uscf_state ir w m))))))
            st')
    (fun _ => True).
Proof.
  intros Hsplit Hparse Hw Hb k_of. unfold process_game. rewrite Hsplit.
  do 2 apply hoare_seq_init. rewrite Hparse.
  set (m0 := init_view _ _ _ _) in *. clearbody m0.
  do 7 hframe_step ltac:(intros ? ?; exact Logic.I) frame_refl.
  apply hoare_seq_glicko; [frame_refl..|intros ? ?; exact Logic.I|].
  unfold update_uscf_ratings.
  repeat first
    [ huscf_read Hw | huscf_read Hb
    | hframe_step ltac:(intros ? ?; exact Logic.I) frame_refl ].
  match goal with
  | Ha : calculate_uscf_change urw urb ws _ = Ok ?ca,
    Hb' : calculate_uscf_change urb urw _ _ = Ok ?cb |- _ =>
      hview_step (fun v : Z * Z => (v.1 + ca, v.2)) ltac:(intros p; reflexivity);
      repeat hframe_step ltac:(fail) frame_refl;
      hview_step (fun v : Z * Z => (v.1 + cb, v.2)) ltac:(intros p; reflexivity);
      repeat hframe_step ltac:(fail) frame_refl;
      hview_step (fun v : Z * Z => (v.1, v.2 + 1)) ltac:(intros p; reflexivity);
      repeat hframe_step ltac:(fail) frame_refl;
      hview_step (fun v : Z * Z => (v.1, v.2 + 1)) ltac:(intros p; reflexivity);
      repeat hframe_step ltac:(intros ? ?; exact Logic.I) frame_refl;
      intros st Hst; exists ca, cb; repeat split; assumption || apply Hst
  end.
Qed.

(** C3 (amended): the USCF K-factor of a player is 40 below 20 USCF games,
    else 32 below a USCF rating of 2100, else 24; in a successfully parsed
    game each side's USCF change is computed with the K-factor of that
    player's own state before the game; and when the two names differ each
    player's USCF rating increases by the player's change and the player's
    USCF game counter by exactly 1, while a player named on both sides
    receives both changes and has the counter increased by 2. *)
Theorem uscf_update_from_pregame_state st line n w b result date_str ws bs
    st' rec :
  split_line line = Some (w, b, result, date_str) ->
  parse_game_result result = Some (ws, bs) ->
  process_game line n st = (st', Ok (Some rec)) ->
  let pw := player_before st w in
  let pb := player_before st b in
  (forall p, get_uscf_k_factor p
             = if Player.uscf_games p <? 20 then 40
               else if Player.uscf_rating p <? 2100 then 32 else 24)
  /\ exists change_w change_b,
      calculate_uscf_change (Player.uscf_rating pw) (Player.uscf_rating pb)
        ws (get_uscf_k_factor pw) = Ok change_w
      /\ calculate_uscf_change (Player.uscf_rating pb) (Player.uscf_rating pw)
           (1 - ws) (get_uscf_k_factor pb) = Ok change_b
      /\ (w <> b ->
          Player.uscf_rating (player_of st' w) = Player.uscf_rating pw + change_w
          /\ Player.uscf_games (player_of st' w) = Player.uscf_games pw + 1
          /\ Player.uscf_rating (player_of st' b)
             = Player.uscf_rating pb + change_b
          /\ Player.uscf_games (player_of st' b) = Player.uscf_games pb + 1)
      /\ (w = b ->
          Player.uscf_rating (player_of st' w)
          = Player.uscf_rating pw + change_w + change_b
          /\ Player.uscf_games (player_of st' w) = Player.uscf_games pw + 2).
Proof.
  intros Hsplit Hparse Hrun pw pb. split; [reflexivity|].
  assert (Hw : init_view uscf_state (initial_rating st) b
                 (init_view uscf_state (initial_rating st) w
                    (view uscf_state st)) !! w
               = Some (Player.uscf_rating pw, Player.uscf_games pw)).
  { rewrite init_view_lookup_before. by rewrite decide_True by tauto. }
  assert (Hb : init_view uscf_state (initial_rating st) b
                 (init_view uscf_state (initial_rating st) w
                    (view uscf_state st)) !! b
               = Some (Player.uscf_rating pb, Player.uscf_games pb)).
  { rewrite init_view_lookup_before. by rewrite decide_True by tauto. }
  pose proof (hoare_run _ _ _ _ _ _ _
    (process_game_uscf line n _ _ _ w b result date_str ws bs _ _ _ _
       Hsplit Hparse Hw Hb) (sees_view uscf_state st) Hrun)
    as (ca & cb & Hca & Hcb & Hsees).
  exists ca, cb. split; [exact Hca|]. split; [exact Hcb|].
  assert (Hfin : forall name v, _ !! name = Some v ->
            uscf_state (player_of st' name) = v)
    by (intros name v; eapply sees_player_of; exact Hsees).
  eassert (H1 : uscf_state (player_of st' w) = _)
    by (apply Hfin; rewrite !lookup_alter_fmap, Hw; reflexivity).
  eassert (H2 : uscf_state (player_of st' b) = _)
    by (apply Hfin; rewrite !lookup_alter_fmap, Hb; reflexivity).
  unfold uscf_state in H1, H2. simpl in H1, H2.
  split.
  - intros Hne. repeat case_decide; try congruence.
    unfold id in *. simpl in *.
    injection H1 as -> ->. injection H2 as -> ->. done.
  - intros <-. clear H2. repeat case_decide; try congruence. simpl in H1.
    injection H1 as -> ->. split; lia.
Qed.

(** *** ELO deltas at equal ratings *)

Lemma process_game_record_parsed line n st st' rec :
  process_game line n st = (st', Ok (Some rec)) ->
  exists w b result date_str ws bs,
    split_line line = Some (w, b, result, date_str)
    /\ parse_game_result result = Some (ws, bs).
Proof.
  unfold process_game.
  destruct (split_line line) as [[[[w b] result] date_str]|]; [|discriminate].
  destruct (parse_game_result result) as [[ws bs]|] eqn:Hparse.
  - intros _. by exists w, b, result, date_str, ws, bs.
  - unfold mbind, M_bind, init_player, mret, M_ret.
    repeat case_match; discriminate.
Qed.

Lemma parse_game_result_cases result ws bs :
  parse_game_result result = Some (ws, bs) ->
  (ws, bs) = (1, 0)%float \/ (ws, bs) = (0, 1)%float
  \/ (ws, bs) = (0.5, 0.5)%float.
Proof.
  unfold parse_game_result. repeat case_match; intros [= <- <-]; auto.
Qed.

Lemma elo_change_equal_ratings st r result ws bs wc bc :
  k_factor st = 32 ->
  parse_game_result result = Some (ws, bs) ->
  calculate_elo_change st r r ws = Ok wc ->
  calculate_elo_change st r r bs = Ok bc ->
  wc + bc = 0.
Proof.
  intros Hk Hparse. unfold calculate_elo_change. rewrite Hk, Z.sub_diag.
  destruct (parse_game_result_cases _ _ _ Hparse) as [H|[H|H]];
    injection H as -> ->; vm_compute; intros [= <-] [= <-]; reflexivity.
Qed.

(** C6: in a game between two players neither of whom was seen before, and
    more generally whenever the two ratings before the game are equal, the
    white and the black ELO delta add up to exactly 0 (so they are within 1
    of one another's opposite). *)
Theorem elo_deltas_cancel st line n st' rec :
  k_factor st = 32 ->
  process_game line n st = (st', Ok (Some rec)) ->
  (players st !! Game.white_player rec = None ->
   players st !! Game.black_player rec = None ->
   -1 <= Game.white_change rec + Game.black_change rec <= 1
   /\ Game.white_rating_before rec = Game.black_rating_before rec)
  /\ (Game.white_rating_before rec = Game.black_rating_before rec ->
      Game.white_change rec + Game.black_change rec = 0).
Proof.
  intros Hk Hrun.
  destruct (process_game_record_parsed _ _ _ _ _ Hrun)
    as (w & b & result & date_str & ws & bs & Hsplit & Hparse).
  set (rw := Player.rating (player_before st w)).
  set (rb := Player.rating (player_before st b)).
  assert (Hw : init_view Player.rating (initial_rating st) b
                 (init_view Player.rating (initial_rating st) w
                    (view Player.rating st)) !! w = Some rw).
  { rewrite init_view_lookup_before. by rewrite decide_True by tauto. }
  assert (Hb : init_view Player.rating (initial_rating st) b
                 (init_view Player.rating (initial_rating st) w
                    (view Player.rating st)) !! b = Some rb).
  { rewrite init_view_lookup_before. by rewrite decide_True by tauto. }
  pose proof (hoare_run _ _ _ _ _ _ _
    (process_game_elo line n _ _ _ w b result date_str ws bs rw rb
       Hsplit Hparse Hw Hb) (sees_view Player.rating st) Hrun)
    as (wc & bc & date & Hwc & Hbc & _ & _ & Hrec).
  injection Hrec as ->. simpl.
  assert (Heq : rw = rb -> wc + bc = 0).
  { intros Hr. rewrite <- Hr in Hwc, Hbc.
    eapply (elo_change_equal_ratings (new_system (k_factor st) (initial_rating st)));
      [exact Hk|exact Hparse|exact Hwc|exact Hbc]. }
  split; [|exact Heq].
  intros Hnw Hnb.
  assert (Hr : rw = rb).
  { unfold rw, rb, player_before. by rewrite Hnw, Hnb. }
  split; [|exact Hr]. rewrite (Heq Hr). lia.
Qed.

(** *** Lines that are skipped *)

Lemma process_game_rejected_line line n st :
  split_line line = None -> process_game line n st = (st, Ok None).
Proof. intros H. unfold process_game. by rewrite H. Qed.

Lemma init_player_returns a st : init_player a st = ((init_player a st).1, Ok tt).
Proof. unfold init_player. by destruct (players st !! a). Qed.

Lemma process_game_rejected_result line n st w b result date_str :
  split_line line = Some (w, b, result, date_str) ->
  parse_game_result result = None ->
  process_game line n st
  = ((init_player b (init_player w st).1).1, Ok None).
Proof.
  intros H1 H2. unfold process_game. rewrite H1, H2.
  unfold mbind, M_bind. rewrite (init_player_returns w st).
  rewrite (init_player_returns b). reflexivity.
Qed.

(** C1, at the input where the code departs from it: a line whose names
    parse and whose result token is invalid is skipped, no game is recorded,
    and yet both names have been registered as players. *)
Theorem invalid_result_registers_players :
  let r := process_game "Alice - Bob 2-0" 1 default_system in
  r.2 = Ok None
  /\ games r.1 = []
  /\ players default_system !! "Alice" = None
  /\ players r.1 !! "Alice" = Some (new_player 1200 "Alice")
  /\ players r.1 !! "Bob" = Some (new_player 1200 "Bob").
Proof. vm_compute. repeat split; reflexivity. Qed.

(** *** Dates *)

Lemma isdecimal_char_cases c :
  isdecimal_char c = true ->
  In c ["0"; "1"; "2"; "3"; "4"; "5"; "6"; "7"; "8"; "9"]%char.
Proof.
  destruct c as [[] [] [] [] [] [] [] []]; intros H;
    try discriminate H; simpl; tauto.
Qed.

Lemma py_int_two_digits c d :
  isdecimal_char c = true -> isdecimal_char d = true ->
  py_int (String c (String d EmptyString))
  = Ok (10 * decimal_value c + decimal_value d).
Proof.
  intros Hc Hd.
  apply isdecimal_char_cases in Hc. apply isdecimal_char_cases in Hd.
  simpl in Hc, Hd.
  repeat match goal with
  | H : _ \/ _ |- _ => destruct H as [H|H]
  | H : False |- _ => destruct H
  end; subst; vm_compute; reflexivity.
Qed.

Lemma list_index_in_range {A} (l : list A) i d :
  0 <= i < Z.of_nat (length l) ->
  list_index l i = Ok (nth (Z.to_nat i) l d).
Proof.
  intros Hi. unfold list_index.
  destruct (i <? 0) eqn:H0; [lia|].
  destruct ((i <? 0) || (Z.of_nat (length l) <=? i)) eqn:H1; [lia|].
  destruct (l !! Z.to_nat i) as [a|] eqn:Hl.
  - f_equal. symmetry. by apply nth_lookup_Some with (d := d).
  - apply lookup_ge_None in Hl. lia.
Qed.

Lemma list_index_beyond {A} (l : list A) i :
  Z.of_nat (length l) <= i -> list_index l i = Raise IndexError.
Proof.
  intros Hi. unfold list_index.
  destruct (i <? 0) eqn:H0; [lia|].
  destruct ((i <? 0) || (Z.of_nat (length l) <=? i)) eqn:H1; [done|lia].
Qed.

(** C4 (amended): [format_date] never raises; on a string of 8 decimal
    digits it returns the month abbreviation of the table, the day field
    printed as an integer and the year field when the month field is 01 to
    12, whatever the day field is, and it returns [None] when the month field
    is 13 or more. *)
Theorem format_date_of_digits date_str :
  String.length date_str = 8%nat ->
  all_chars isdecimal_char date_str = true ->
  let month := decimal_number (substring 4 2 date_str) in
  let day := decimal_number (substring 6 2 date_str) in
  (1 <= month <= 12 ->
   format_date date_str
   = Ok (Some (nth (Z.to_nat (month - 1)) months "" +:+ " "
               +:+ str_of_int day +:+ ", " +:+ substring 0 4 date_str)))
  /\ (13 <= month -> format_date date_str = Ok None)
  /\ (forall s, exists r, format_date s = Ok r).
Proof.
  intros Hlen Hdig.
  destruct date_str as [|y1 [|y2 [|y3 [|y4 [|m1 [|m2 [|d1 [|d2 [|]]]]]]]]];
    try discriminate Hlen.
  simpl in Hdig.
  repeat match type of Hdig with
  | (_ && _) = true => apply andb_prop in Hdig as [? Hdig]
  end.
  intros month day.
  assert (Hfmt : format_date
      (String y1 (String y2 (String y3 (String y4
        (String m1 (String m2 (String d1 (String d2 EmptyString))))))))
    = except_value_index (
        month_name ← list_index months (month - 1);
        Ok (Some (month_name +:+ " " +:+ str_of_int day +:+ ", "
                  +:+ String y1 (String y2 (String y3 (String y4 ""))))))).
  { unfold format_date. simpl substring. simpl String.length. simpl is_empty.
    cbn [orb negb Nat.eqb]. cbv beta iota.
    rewrite !py_int_two_digits by assumption. simpl.
    destruct (list_index months _); reflexivity. }
  repeat split.
  - intros Hm. rewrite Hfmt.
    rewrite (list_index_in_range months (month - 1) "") by (simpl; lia).
    reflexivity.
  - intros Hm. rewrite Hfmt.
    rewrite list_index_beyond by (simpl; lia). reflexivity.
  - apply format_date_total.
Qed.
(** *** The Glicko-2 volatility *)

Lemma is_nan_Prim2SF x : is_nan x = true <-> Prim2SF x = S754_nan.
Proof.
  unfold is_nan. rewrite FloatAxioms.eqb_spec. unfold SFeqb.
  destruct (Prim2SF x) as [s|s| |s m e]; simpl; try (by destruct s).
  - done.
  - destruct s; rewrite Z.compare_refl, Pos.compare_cont_refl; simpl; split; done.
Qed.

Lemma binary_round_aux_not_negative mx ex lx :
  not_negative (binary_round_aux prec emax false mx ex lx) = true.
Proof.
  unfold binary_round_aux.
  destruct (shr_fexp _ _ _ _ _) as [mrs' e'].
  destruct (shr_fexp _ _ _ _ _) as [mrs'' e''].
  destruct (shr_m mrs''); [done| |done]. by case_match.
Qed.

Lemma sqrt_not_negative x : not_negative (Prim2SF (PrimFloat.sqrt x)) = true.
Proof.
  rewrite sqrt_spec. unfold SF64sqrt, SFsqrt.
  destruct (Prim2SF x) as [s|[]| |[] m e]; try done.
  destruct (SFsqrt_core_binary _ _ _ _) as [[mz ez] lz].
  apply binary_round_aux_not_negative.
Qed.

Lemma digits2_pos_bound m : Zpos m < 2 ^ Zpos (digits2_pos m).
Proof.
  induction m as [m IH|m IH|]; simpl digits2_pos; [| |done];
    rewrite Pos2Z.inj_succ, Z.pow_succ_r by lia; lia.
Qed.

Lemma valid_mantissa_bound s m e :
  valid_binary (S754_finite s m e) = true -> Zpos m < 2 ^ 53.
Proof.
  simpl. unfold bounded, canonical_mantissa, fexp.
  intros [H _]%andb_prop. apply Z.eqb_eq in H.
  pose proof (digits2_pos_bound m) as Hm.
  assert (Zpos (digits2_pos m) <= 53) by (unfold prec in H; lia).
  eapply Z.lt_le_trans; [exact Hm|]. apply Z.pow_le_mono_r; lia.
Qed.

Lemma round_half_even_le M e B :
  0 <= M -> e < 0 -> 2 * M < (2 * B + 1) * 2 ^ (- e) ->
  round_half_even M e <= B.
Proof.
  intros HM He H. unfold round_half_even.
  destruct (Z.leb_spec 0 e); [lia|].
  assert (Hd : 0 < 2 ^ (- e)) by (apply Z.pow_pos_nonneg; lia).
  set (d := 2 ^ (- e)) in *.
  pose proof (Z.div_mod M d ltac:(lia)) as Hdm.
  pose proof (Z.mod_pos_bound M d Hd) as Hr.
  set (q := M / d) in *. set (r := M mod d) in *.
  assert (q <= B) by nia.
  destruct (Z.eq_dec q B) as [->|].
  - assert (2 * r < d) by nia. destruct (Z.ltb_spec (2 * r) d); lia.
  - repeat case_match; lia.
Qed.

Lemma cap_value : Prim2SF 0.2 = S754_finite false 7205759403792794 (-55).
Proof. reflexivity. Qed.

Lemma below_cap_digits x m e :
  Prim2SF x = S754_finite false m e -> (0.2 <? x)%float = false ->
  round_half_even (Zpos m * 10 ^ 4) e <= 2000.
Proof.
  intros Hx Hlt. pose proof (Prim2SF_valid x) as Hv. rewrite Hx in Hv.
  apply valid_mantissa_bound in Hv.
  rewrite ltb_spec, Hx, cap_value in Hlt. unfold SFltb, SFcompare in Hlt.
  clear Hx.
  destruct (Z.compare_spec (-55) e) as [Heq|He|He]; [subst e| discriminate |].
  - assert (Zpos m <= 7205759403792794).
    { change (Pos.compare_cont Eq 7205759403792794 m)
        with (7205759403792794 ?= Zpos m) in Hlt.
      destruct (Z.compare_spec 7205759403792794 (Zpos m));
        [clear Hlt; lia|discriminate|clear Hlt; lia]. }
    clear Hlt.
    apply round_half_even_le; [lia|lia|].
    change (2 ^ (- -55)) with 36028797018963968. lia.
  - clear Hlt. apply round_half_even_le; [lia|lia|].
    assert (2 ^ 56 <= 2 ^ (- e)) by (apply Z.pow_le_mono_r; lia).
    change (2 ^ 56) with 72057594037927936 in *.
    change (2 ^ 53) with 9007199254740992 in *.
    change (10 ^ 4) with 10000. nia.
Qed.

Lemma cap_table p :
  Zpos p <= 2000 ->
  capped (SF2Prim (SFdiv prec emax (S754_finite false p 0) (SF_of_int (10 ^ 4)))).
Proof.
  intros Hp.
  assert (H : forallb (fun p => (SF2Prim (SFdiv prec emax (S754_finite false p 0)
                                   (SF_of_int (10 ^ 4))) <=? 0.2)%float)
                (map Pos.of_nat (seq 1 2000)) = true)
    by (vm_compute; reflexivity).
  rewrite forallb_forall in H. apply H.
  apply in_map_iff. exists (Pos.to_nat p). split; [apply Pos2Nat.id|].
  apply in_seq. lia.
Qed.

Lemma py_round_ndigits_capped x :
  not_negative (Prim2SF x) = true -> (0.2 <? x)%float = false ->
  Prim2SF x <> S754_nan -> capped (py_round_ndigits x 4).
Proof.
  intros Hs Hlt Hn. unfold py_round_ndigits.
  pose proof (below_cap_digits x) as Hd.
  unfold capped. rewrite ltb_spec in Hlt.
  destruct (Prim2SF x) as [s|s| |s m e] eqn:Hx.
  - rewrite leb_spec, Hx. by destruct s.
  - destruct s; [discriminate|]. rewrite cap_value in Hlt. discriminate.
  - done.
  - destruct s; [discriminate|]. rewrite <- Hx, <- ltb_spec in Hlt.
    specialize (Hd m e eq_refl Hlt).
    destruct (round_half_even _ _) as [|p|p]; [reflexivity| |reflexivity].
    by apply cap_table.
Qed.

Lemma py_round_ndigits_cap : capped (py_round_ndigits 0.2 4).
Proof. vm_compute. reflexivity. Qed.

(** NaN is contagious. *)
Lemma mul_nan_l x y : Prim2SF x = S754_nan -> Prim2SF (x * y) = S754_nan.
Proof. intros H. rewrite mul_spec, H. reflexivity. Qed.

Lemma mul_nan_r x y : Prim2SF y = S754_nan -> Prim2SF (x * y) = S754_nan.
Proof. intros H. rewrite mul_spec, H. by destruct (Prim2SF x). Qed.

Lemma add_nan_l x y : Prim2SF x = S754_nan -> Prim2SF (x + y) = S754_nan.
Proof. intros H. rewrite add_spec, H. reflexivity. Qed.

Lemma add_nan_r x y : Prim2SF y = S754_nan -> Prim2SF (x + y) = S754_nan.
Proof. intros H. rewrite add_spec, H. by destruct (Prim2SF x). Qed.

Lemma float_div_nan_r x y z :
  Prim2SF y = S754_nan -> float_div x y = Ok z -> Prim2SF z = S754_nan.
Proof.
  intros H. unfold float_div. case_match; [discriminate|]. intros [= <-].
  rewrite div_spec, H. by destruct (Prim2SF x).
Qed.

Lemma math_sqrt_nan x y :
  Prim2SF x = S754_nan -> math_sqrt x = Ok y -> Prim2SF y = S754_nan.
Proof.
  intros H. unfold math_sqrt. apply is_nan_Prim2SF in H as Hn. rewrite Hn.
  by intros [= <-].
Qed.

Lemma py_round_nan x : Prim2SF x = S754_nan -> py_round x = Raise ValueError.
Proof. intros H. unfold py_round. by rewrite H. Qed.

Lemma math_sqrt_not_negative x y :
  math_sqrt x = Ok y -> Prim2SF y = S754_nan \/ not_negative (Prim2SF y) = true.
Proof.
  unfold math_sqrt. destruct (is_nan x) eqn:Hn.
  - intros [= <-]. left. by apply is_nan_Prim2SF.
  - case_match; [discriminate|]. intros [= <-]. right. apply sqrt_not_negative.
Qed.

Lemma py_min_capped s :
  Prim2SF s = S754_nan \/ not_negative (Prim2SF s) = true ->
  Prim2SF (py_min s 0.2) = S754_nan \/ capped (py_round_ndigits (py_min s 0.2) 4).
Proof.
  intros Hs. unfold py_min. destruct (0.2 <? s)%float eqn:Hlt.
  - right. apply py_round_ndigits_cap.
  - destruct Hs as [Hs|Hs]; [by left|].
    destruct (Prim2SF s) eqn:Hx; try (right; apply py_round_ndigits_capped; rewrite ?Hx; done).
    by left.
Qed.

(** One statement of a computation that returned. *)
Ltac res_case :=
  cbv zeta;
  lazymatch goal with
  | |- (match ?r with Ok _ => _ | Raise _ => _ end) = _ -> _ =>
      let H := fresh "Hres" in destruct r eqn:H; [|discriminate]
  end.

Lemma glicko2_new_values_nan mu phi sigma mu_j phi_j score mu' phi' sigma' :
  glicko2_new_values mu phi sigma mu_j phi_j score = Ok (mu', phi', sigma') ->
  Prim2SF sigma' = S754_nan -> Prim2SF mu' = S754_nan.
Proof.
  unfold glicko2_new_values, mbind, res_bind. do 11 res_case.
  intros [= <- <- <-] Hn.
  apply add_nan_r, mul_nan_l, mul_nan_l, mul_nan_l.
  eapply float_div_nan_r; [|eassumption].
  eapply math_sqrt_nan; [|eassumption]. apply add_nan_l.
  eapply float_div_nan_r; [|eassumption]. apply mul_nan_l.
  eapply math_sqrt_nan; [|eassumption]. by apply add_nan_r, mul_nan_l.
Qed.

Lemma glicko2_new_values_min mu phi sigma mu_j phi_j score mu' phi' sigma' :
  glicko2_new_values mu phi sigma mu_j phi_j score = Ok (mu', phi', sigma') ->
  exists g e v q h s,
    glicko2_g phi_j = Ok g /\ glicko2_e mu mu_j phi_j = Ok e
    /\ float_div 1 (g * g * e * (1 - e)) = Ok v
    /\ float_div (v * g * (score - e) * (v * g * (score - e))) v = Ok q
    /\ float_div (sigma * sigma + q) 2 = Ok h
    /\ math_sqrt h = Ok s
    /\ sigma' = py_min s 0.2.
Proof.
  unfold glicko2_new_values, mbind, res_bind. do 11 res_case.
  intros [= <- <- <-]. do 6 eexists.
  repeat (split; [first [eassumption|reflexivity]|]). reflexivity.
Qed.

Lemma glicko2_new_values_capped mu phi sigma mu_j phi_j score mu' phi' sigma' r :
  glicko2_new_values mu phi sigma mu_j phi_j score = Ok (mu', phi', sigma') ->
  py_round (glicko2_unscale mu') = Ok r ->
  capped (py_round_ndigits sigma' 4).
Proof.
  intros H Hr.
  destruct (glicko2_new_values_min _ _ _ _ _ _ _ _ _ H)
    as (g & e & v & q & h & s & _ & _ & _ & _ & _ & Hs & ->).
  apply math_sqrt_not_negative in Hs.
  destruct (py_min_capped s Hs) as [Hn|Hc]; [|exact Hc].
  apply (glicko2_new_values_nan _ _ _ _ _ _ _ _ _ H) in Hn.
  unfold glicko2_unscale in Hr.
  rewrite py_round_nan in Hr by (by apply add_nan_l, mul_nan_l).
  discriminate.
Qed.

Lemma all_capped_alter m a v :
  all_capped m -> capped v -> all_capped (alter (fun _ => v) a m).
Proof.
  intros Hm Hv name x. rewrite lookup_alter_fmap.
  destruct (m !! name) as [y|] eqn:Hy; [simpl|done].
  intros [= <-]. case_decide; [exact Hv|]. by apply (Hm name).
Qed.

Lemma all_capped_init_view ir a m :
  all_capped m -> all_capped (init_view Player.glicko_volatility ir a m).
Proof.
  intros Hm. unfold init_view. destruct (m !! a); [exact Hm|].
  intros name v. rewrite lookup_insert. case_decide; [|apply Hm].
  by intros [= <-].
Qed.

Lemma update_glicko2_ratings_capped kf ir m a b s :
  all_capped m ->
  hoare (sees Player.glicko_volatility kf ir m) (update_glicko2_ratings a b s)
    (fun _ => keeps Player.glicko_volatility kf ir all_capped)
    (keeps Player.glicko_volatility kf ir all_capped).
Proof.
  intros Hm. unfold update_glicko2_ratings.
  assert (HE : forall st, sees Player.glicko_volatility kf ir m st ->
                          keeps Player.glicko_volatility kf ir all_capped st)
    by (intros st; by apply sees_keeps).
  repeat hframe_step ltac:(exact HE) frame_refl.
  match goal with
  | Hn : glicko2_new_values _ _ _ _ _ s = Ok (_, _, ?sg),
    Hr : py_round (glicko2_unscale _) = Ok _ |- _ =>
      pose proof (glicko2_new_values_capped _ _ _ _ _ _ _ _ _ _ Hn Hr) as Hc;
      hview_step (fun _ : float => py_round_ndigits sg 4) ltac:(intros p; reflexivity);
      pose proof (all_capped_alter m a _ Hm Hc) as Hm1
  end.
  match type of Hm1 with all_capped ?m' => set (m1 := m') in * end.
  clearbody m1.
  assert (HE1 : forall st, sees Player.glicko_volatility kf ir m1 st ->
                           keeps Player.glicko_volatility kf ir all_capped st)
    by (intros st; by apply sees_keeps).
  repeat hframe_step ltac:(exact HE1) frame_refl.
  match goal with
  | Hn : glicko2_new_values _ _ _ _ _ (1 - s) = Ok (_, _, ?sg),
    Hr : py_round (glicko2_unscale _) = Ok _ |- _ =>
      pose proof (glicko2_new_values_capped _ _ _ _ _ _ _ _ _ _ Hn Hr) as Hc';
      hview_step (fun _ : float => py_round_ndigits sg 4) ltac:(intros p; reflexivity);
      pose proof (all_capped_alter m1 b _ Hm1 Hc') as Hm2
  end.
  intros st. by apply sees_keeps.
Qed.

Lemma process_game_capped line game_number kf ir m :
  all_capped m ->
  hoare (sees Player.glicko_volatility kf ir m) (process_game line game_number)
    (fun _ => keeps Player.glicko_volatility kf ir all_capped)
    (keeps Player.glicko_volatility kf ir all_capped).
Proof.
  intros Hm. unfold process_game.
  destruct (split_line line) as [[[[w b] result] date_str]|].
  2: { apply hoare_return. intros st. by apply sees_keeps. }
  do 2 apply hoare_seq_init.
  set (m0 := init_view _ _ _ _).
  assert (Hm0 : all_capped m0) by (do 2 apply all_capped_init_view; exact Hm).
  clearbody m0. clear m Hm.
  assert (HE : forall st, sees Player.glicko_volatility kf ir m0 st ->
                          keeps Player.glicko_volatility kf ir all_capped st)
    by (intros st; by apply sees_keeps).
  destruct (parse_game_result result) as [[white_score black_score]|].
  2: { apply hoare_return. exact HE. }
  do 7 hframe_step ltac:(exact HE) frame_refl.
  apply hoare_seq with (R := keeps Player.glicko_volatility kf ir all_capped);
    [by apply update_glicko2_ratings_capped|intros _].
  apply hoare_keeps_pre. intros m1 Hm1.
  assert (HE1 : forall st, sees Player.glicko_volatility kf ir m1 st ->
                           keeps Player.glicko_volatility kf ir all_capped st)
    by (intros st; by apply sees_keeps).
  apply hoare_seq_uscf; [frame_refl..|exact HE1|].
  repeat hframe_step ltac:(exact HE1) frame_refl.
  exact HE1.
Qed.

Lemma capped_after_prefix kf ir lines k :
  keeps Player.glicko_volatility kf ir all_capped (after_prefix kf ir lines k).
Proof.
  apply after_prefix_invariant.
  - apply keeps_new_system. intros ? ?. by rewrite lookup_empty.
  - intros line n. apply hoare_keeps_pre. intros m Hm.
    by apply process_game_capped.
Qed.

Lemma hoare_seq_gets_player {V B} (delta : Player.t -> V) kf ir m name v
    (k : Player.t -> M B) Q E :
  m !! name = Some v ->
  (forall p, delta p = v -> hoare (sees delta kf ir m) (k p) Q E) ->
  hoare (sees delta kf ir m) (gets (fun st => player_of st name) ≫= k) Q E.
Proof.
  intros Hv H st Hst.
  exact (H _ (sees_player_of delta kf ir m name v st Hst Hv) st Hst).
Qed.

Lemma capped_volatility_new_values p o score mu mu_j phi phi_j mu' phi' sigma' :
  glicko2_scale (Player.glicko_rating p) = Ok mu ->
  glicko2_scale (Player.glicko_rating o) = Ok mu_j ->
  float_div (Player.glicko_deviation o) 173.7178 = Ok phi_j ->
  glicko2_new_values mu phi (Player.glicko_volatility p) mu_j phi_j score
    = Ok (mu', phi', sigma') ->
  capped_volatility p o score = Ok sigma'.
Proof.
  intros H1 H2 H3 H.
  apply glicko2_new_values_min in H
    as (g & e & v & q & h & s & Hg & He & Hv & Hq & Hh & Hs & ->).
  unfold capped_volatility, mbind, res_bind.
  rewrite H1, H2, H3. cbv beta iota. rewrite Hg, He. cbv beta iota.
  rewrite Hv. cbv beta iota zeta. rewrite Hq. cbv beta iota.
  rewrite Hh. cbv beta iota. by rewrite Hs.
Qed.

(** One step through a write of a Glicko-2 field. *)
Ltac hglicko_step :=
  hnorm;
  lazymatch goal with
  | |- hoare _ (mbind _ (mbind _ _)) _ _ => apply hoare_seq_assoc
  | |- hoare _ (mbind _ (modify_player _
                  (Player.set_glicko_rating (fun _ => ?r)))) _ _ =>
      hview_step (fun v : Z * float * float => (r, v.1.2, v.2))
        ltac:(intros ?; reflexivity)
  | |- hoare _ (mbind _ (modify_player _
                  (Player.set_glicko_deviation (fun _ => ?d)))) _ _ =>
      hview_step (fun v : Z * float * float => (v.1.1, d, v.2))
        ltac:(intros ?; reflexivity)
  | |- hoare _ (mbind _ (modify_player _
                  (Player.set_glicko_volatility (fun _ => ?s)))) _ _ =>
      hview_step (fun v : Z * float * float => (v.1, s))
        ltac:(intros ?; reflexivity)
  | |- hoare _ (mbind _ (lift _)) _ _ =>
      apply hoare_seq_lift; [intros ? ?; exact Logic.I|intros ? ?]
  end.

Lemma process_game_volatility line n kf ir m w b result date_str ws bs pw pb :
  split_line line = Some (w, b, result, date_str) ->
  parse_game_result result = Some (ws, bs) ->
  init_view glicko_state ir b (init_view glicko_state ir w m) !! w
    = Some (glicko_state pw) ->
  init_view glicko_state ir b (init_view glicko_state ir w m) !! b
    = Some (glicko_state pb) ->
  hoare (sees glicko_state kf ir m) (process_game line n)
    (fun _ st' => exists sigma_w sigma_b,
       capped_volatility pw pb ws = Ok sigma_w
       /\ capped_volatility pb pw (1 - ws) = Ok sigma_b
       /\ Player.glicko_volatility (player_of st' b) = py_round_ndigits sigma_b 4
       /\ (w <> b ->
           Player.glicko_volatility (player_of st' w)
           = py_round_ndigits sigma_w 4))
    (fun _ => True).
Proof.
  intros Hsplit Hparse Hw Hb. unfold process_game. rewrite Hsplit.
  do 2 apply hoare_seq_init. rewrite Hparse.
  set (m0 := init_view _ _ _ _) in *. clearbody m0.
  do 7 hframe_step ltac:(intros ? ?; exact Logic.I) frame_refl.
  unfold update_glicko2_ratings at 1.
  apply hoare_seq_assoc.
  apply (hoare_seq_gets_player glicko_state kf ir m0 w _ _ _ _ Hw).
  intros pa [= Ha1 Ha2 Ha3].
  apply hoare_seq_assoc.
  apply (hoare_seq_gets_player glicko_state kf ir m0 b _ _ _ _ Hb).
  intros pc [= Hc1 Hc2 Hc3].
  rewrite Ha1, Ha2, Ha3, Hc1, Hc2, Hc3.
  repeat hframe_step ltac:(intros ? ?; exact Logic.I) frame_refl.
  repeat hglicko_step.
  apply hoare_seq_uscf; [frame_refl..|intros ? ?; exact Logic.I|].
  repeat hframe_step ltac:(intros ? ?; exact Logic.I) frame_refl.
  intros st Hst.
  match goal with
  | Hn : glicko2_new_values _ _ _ _ _ ws = Ok (_, _, ?sw),
    Hn' : glicko2_new_values _ _ _ _ _ (1 - ws) = Ok (_, _, ?sb) |- _ =>
      exists sw, sb;
      split; [by eapply capped_volatility_new_values|];
      split; [by eapply capped_volatility_new_values|]
  end.
  assert (Hfin : forall name v, _ !! name = Some v ->
            glicko_state (player_of st name) = v)
    by (intros name v; eapply sees_player_of; exact Hst).
  eassert (Hfw : glicko_state (player_of st w) = _)
    by (apply Hfin; rewrite !lookup_alter_fmap, Hw; reflexivity).
  eassert (Hfb : glicko_state (player_of st b) = _)
    by (apply Hfin; rewrite !lookup_alter_fmap, Hb; reflexivity).
  unfold glicko_state in Hfw, Hfb. simpl in Hfw, Hfb.
  split.
  - clear Hfw. repeat case_decide; try congruence; simpl in Hfb; congruence.
  - intros Hne. clear Hfb.
    repeat case_decide; try congruence; simpl in Hfw; congruence.
Qed.

(** C5: in a successfully parsed game, each side's new volatility is
    [min(sqrt((sigma^2 + Delta^2/v)/2), 0.2)], computed from the two
    players as they are before the game; the volatility stored for the player
    is that number rounded to four places (for a player named on both sides,
    the one computed for the black side); and after the game every player's
    stored volatility is at most 0.2. *)
Theorem glicko_volatility_capped kf ir lines k line n st' rec w b result
    date_str ws bs :
  let st := after_prefix kf ir lines k in
  split_line line = Some (w, b, result, date_str) ->
  parse_game_result result = Some (ws, bs) ->
  process_game line n st = (st', Ok (Some rec)) ->
  exists sigma_w sigma_b,
    capped_volatility (player_before st w) (player_before st b) ws
      = Ok sigma_w
    /\ capped_volatility (player_before st b) (player_before st w) (1 - ws)
       = Ok sigma_b
    /\ Player.glicko_volatility (player_of st' b) = py_round_ndigits sigma_b 4
    /\ (w <> b ->
        Player.glicko_volatility (player_of st' w) = py_round_ndigits sigma_w 4)
    /\ (forall name p, players st' !! name = Some p ->
        capped (Player.glicko_volatility p)).
Proof.
  intros st Hsplit Hparse Hrun.
  assert (Hw : init_view glicko_state (initial_rating st) b
                 (init_view glicko_state (initial_rating st) w
                    (view glicko_state st)) !! w
               = Some (glicko_state (player_before st w))).
  { rewrite init_view_lookup_before. by rewrite decide_True by tauto. }
  assert (Hb : init_view glicko_state (initial_rating st) b
                 (init_view glicko_state (initial_rating st) w
                    (view glicko_state st)) !! b
               = Some (glicko_state (player_before st b))).
  { rewrite init_view_lookup_before. by rewrite decide_True by tauto. }
  pose proof (hoare_run _ _ _ _ _ _ _
    (process_game_volatility line n _ _ _ w b result date_str ws bs _ _
       Hsplit Hparse Hw Hb) (sees_view glicko_state st) Hrun)
    as (sw & sb & Hsw & Hsb & Hvb & Hvw).
  exists sw, sb. repeat (split; [assumption|]).
  intros name p Hp.
  pose proof (hoare_run _ _ _ _ _ _ _
    (hoare_keeps_pre Player.glicko_volatility kf ir all_capped _ _ _
       (fun m Hm => process_game_capped line n kf ir m Hm))
    (capped_after_prefix kf ir lines k) Hrun) as Hk.
  pose proof (keeps_lookup _ _ _ _ _ _ _ Hk Hp) as Hv.
  destruct Hk as (_ & _ & Hk). by apply Hk in Hv.
Qed.

(** *** The two game counters *)

Lemma init_player_lookup a st name :
  players (init_player a st).1 !! name
  = if decide (name = a) then Some (player_before st a) else players st !! name.
Proof.
  unfold init_player, player_before.
  destruct (players st !! a) as [p|] eqn:Ha; simpl.
  - case_decide; [subst; by rewrite Ha|done].
  - rewrite lookup_insert. by repeat case_decide; subst.
Qed.

Lemma init_player_config a st :
  games (init_player a st).1 = games st
  /\ k_factor (init_player a st).1 = k_factor st
  /\ initial_rating (init_player a st).1 = initial_rating st.
Proof. unfold init_player. by destruct (players st !! a). Qed.

Lemma init_players_lookup w b st name :
  players (init_player b (init_player w st).1).1 !! name
  = if decide (name = w \/ name = b)
    then Some (player_before st name)
    else players st !! name.
Proof.
  destruct (init_player_config w st) as (_ & _ & Hi).
  rewrite init_player_lookup. unfold player_before at 1.
  rewrite Hi, !init_player_lookup.
  destruct (decide (name = b)) as [->|Hb], (decide (b = w)) as [->|Hw];
    repeat case_decide; subst; try tauto; done.
Qed.

Lemma process_game_counters line n kf ir m w b result date_str ws bs :
  split_line line = Some (w, b, result, date_str) ->
  parse_game_result result = Some (ws, bs) ->
  hoare (sees game_counters kf ir m) (process_game line n)
    (fun r st' => exists rec,
       r = Some rec /\ Game.white_player rec = w /\ Game.black_player rec = b
       /\ sees game_counters kf ir
            (alter (fun v => (v.1, v.2 + 1)) b
              (alter (fun v => (v.1, v.2 + 1)) w
                (alter (fun v => (v.1 + 1, v.2)) b
                  (alter (fun v => (v.1 + 1, v.2)) w
                    (init_view game_counters ir b
                       (init_view game_counters ir w m))))))
            st')
    (sees game_counters kf ir
       (init_view game_counters ir b (init_view game_counters ir w m))).
Proof.
  intros Hsplit Hparse. unfold process_game. rewrite Hsplit.
  do 2 apply hoare_seq_init. rewrite Hparse.
  set (m0 := init_view _ _ _ _) in *. clearbody m0.
  do 7 hframe_step ltac:(intros ? ?; assumption) frame_refl.
  apply hoare_seq_glicko; [frame_refl..|intros ? ?; assumption|].
  unfold update_uscf_ratings.
  repeat hframe_step ltac:(intros ? ?; assumption) frame_refl.
  hview_step (fun v : Z * Z => (v.1 + 1, v.2)) ltac:(intros p; reflexivity).
  repeat hframe_step ltac:(fail) frame_refl.
  hview_step (fun v : Z * Z => (v.1 + 1, v.2)) ltac:(intros p; reflexivity).
  repeat hframe_step ltac:(fail) frame_refl.
  do 2 hview_step (fun v : Z * Z => (v.1, v.2 + 1)) ltac:(intros p; reflexivity).
  repeat hframe_step ltac:(fail) frame_refl.
  intros st Hst. eexists. split; [reflexivity|].
  split; [reflexivity|]. split; [reflexivity|exact Hst].
Qed.

(** C9 (amended): after any prefix of the log every player's USCF game
    counter equals the player's game counter; and whatever the next line is,
    processing it moves the two counters of every player by the same amount:
    the number of sides the player takes in the game that was recorded (1 in
    a game against another player, 2 for a player named on both sides, 0 for
    everybody else), and nothing when the line is skipped or its processing
    raises. *)
Theorem uscf_games_move_with_games kf ir lines k line n st' r name p' :
  let st := after_prefix kf ir lines k in
  process_game line n st = (st', r) ->
  players st' !! name = Some p' ->
  (forall other p, players st !! other = Some p ->
     Player.uscf_games p = Player.games p)
  /\ Player.games p' = Player.games (player_before st name) + sides r name
  /\ Player.uscf_games p'
     = Player.uscf_games (player_before st name) + sides r name
  /\ Player.uscf_games p' = Player.games p'.
Proof.
  intros st Hrun Hp'.
  assert (Hinv : forall other p, players st !! other = Some p ->
            Player.uscf_games p = Player.games p)
    by (intros other p; apply counters_equal_after_prefix).
  assert (Hbefore : Player.uscf_games (player_before st name)
                    = Player.games (player_before st name)).
  { unfold player_before.
    destruct (players st !! name) as [p|] eqn:Hp; simpl; [|done].
    exact (Hinv name p Hp). }
  split; [exact Hinv|].
  cut (Player.games p' = Player.games (player_before st name) + sides r name
       /\ Player.uscf_games p'
          = Player.uscf_games (player_before st name) + sides r name).
  { intros [H1 H2]. repeat split; [exact H1|exact H2|lia]. }
  clear Hinv Hbefore.
  destruct (split_line line) as [[[[w b] result] date_str]|] eqn:Hsplit.
  2: { rewrite (process_game_rejected_line _ _ _ Hsplit) in Hrun.
       injection Hrun as <- <-. unfold player_before. rewrite Hp'. simpl. lia. }
  destruct (parse_game_result result) as [[ws bs]|] eqn:Hparse.
  2: { rewrite (process_game_rejected_result _ _ _ _ _ _ _ Hsplit Hparse) in Hrun.
       injection Hrun as <- <-. rewrite init_players_lookup in Hp'. simpl.
       case_decide; [injection Hp' as <-; lia|].
       unfold player_before. rewrite Hp'. simpl. lia. }
  pose proof (process_game_counters line n _ _ _ w b result date_str ws bs
                Hsplit Hparse st (sees_view game_counters st)) as H.
  rewrite Hrun in H.
  assert (Hlook : forall m1 : gmap string (Z * Z),
            sees game_counters (k_factor st) (initial_rating st) m1 st' ->
            m1 !! name = Some (game_counters p')).
  { intros m1 (_ & _ & <-). unfold view. by rewrite lookup_fmap, Hp'. }
  assert (Hm0 : forall v,
            init_view game_counters (initial_rating st) b
              (init_view game_counters (initial_rating st) w
                 (view game_counters st)) !! name = Some v ->
            v = game_counters (player_before st name)).
  { intros v. rewrite init_view_lookup_before.
    case_decide; [congruence|]. unfold player_before.
    destruct (players st !! name); simpl; congruence. }
  destruct r as [[rec|]|e].
  - destruct H as (rec' & [= <-] & Hw & Hb & Hsees).
    apply Hlook in Hsees. rewrite !lookup_alter_fmap in Hsees.
    destruct (init_view _ _ _ _ !! name) as [v|]; [|discriminate].
    rewrite (Hm0 v eq_refl) in Hsees. simpl in Hsees. unfold sides. rewrite Hw, Hb.
    unfold game_counters in Hsees.
    repeat case_decide; subst; try congruence; unfold id in Hsees;
      simpl in Hsees; injection Hsees as Hu Hg; lia.
  - by destruct H as (rec' & [=] & _).
  - apply Hlook in H. apply Hm0 in H. unfold game_counters in H.
    injection H as Hu Hg. simpl. lia.
Qed.

(** ** Further properties of the methods *)

(** *** [init_player] *)


(** *** [parse_game_result] *)


(** *** [update_rating_extremes] *)









(** *** [format_date] *)




(** ** Further invariants of the run *)






(** *** Runs that complete *)








(** ** The list of game records *)











(** ** The dictionary of players *)




(** ** The lists of notable results *)













(** ** Head-to-head tallies and counters *)














(** ** Lines that are not games *)



(** *** What a line splits into *)





(** ** The two ELO formulas *)



(** ** What the rating updates leave alone *)







(** ** The loop over the lines *)



(** ** The last entry of the rating history *)

Lemma last_snoc_shown (h : list History.t) x :
  shown <$> last (h ++ [x]) = Some (shown x).
Proof. by rewrite last_snoc. Qed.



(** ** What an exception leaves behind *)






End Engine.

(** ** Closed instances *)

Lemma games_eq_wins_draws_losses_witness :
  let p := player_of (after_prefix pow_unused exp_unused 32 1200
                        ["Alice - Bob 1-0"; "garbage text"; "Carol - Alice x"] 3)
             "Alice" in
  Player.games p = Player.wins p + Player.draws p + Player.losses p.
Proof.
  apply (games_eq_wins_draws_losses pow_unused exp_unused 32 1200
           ["Alice - Bob 1-0"; "garbage text"; "Carol - Alice x"] 3 "Alice").
  vm_compute. reflexivity.
Defined.

Lemma uscf_games_move_with_games_witness :
  let st := after_prefix pow_unused exp_unused 32 1200 ["Alice - Bob 1-0"] 1 in
  let run := process_game pow_unused exp_unused "Alice - Alice 0.5-0.5" 2 st in
  let p' := player_of run.1 "Alice" in
  Player.games (player_before st "Alice") = 1
  /\ sides run.2 "Alice" = 2
  /\ Player.games p' = 3 /\ Player.uscf_games p' = 3.
Proof.
  destruct (uscf_games_move_with_games pow_unused exp_unused 32 1200
    ["Alice - Bob 1-0"] 1 "Alice - Alice 0.5-0.5" 2
    (process_game pow_unused exp_unused "Alice - Alice 0.5-0.5" 2
       (after_prefix pow_unused exp_unused 32 1200 ["Alice - Bob 1-0"] 1)).1
    (process_game pow_unused exp_unused "Alice - Alice 0.5-0.5" 2
       (after_prefix pow_unused exp_unused 32 1200 ["Alice - Bob 1-0"] 1)).2
    "Alice"
    (player_of
       (process_game pow_unused exp_unused "Alice - Alice 0.5-0.5" 2
          (after_prefix pow_unused exp_unused 32 1200 ["Alice - Bob 1-0"] 1)).1
       "Alice")
    ltac:(vm_compute; reflexivity) ltac:(vm_compute; reflexivity))
    as (_ & Hg & Hu & _).
  split; [vm_compute; reflexivity|]. split; [vm_compute; reflexivity|].
  split; [exact Hg|exact Hu].
Defined.

(** C9 as stated fails for a game of a player against herself: it is one
    game, and it moves each of her two counters by 2, not by 1. *)
Lemma counters_self_play_counterexample :
  let run := process_game pow_unused exp_unused "Alice - Alice 1-0" 1
               default_system in
  exists rec, run.2 = Ok (Some rec) /\ games run.1 = [rec]
    /\ Player.games (player_before default_system "Alice") = 0
    /\ Player.uscf_games (player_before default_system "Alice") = 0
    /\ Player.games (player_of run.1 "Alice") = 2
    /\ Player.uscf_games (player_of run.1 "Alice") = 2
    /\ Player.games (player_of run.1 "Alice")
       <> Player.games (player_before default_system "Alice") + 1.
Proof.
  exists (Game.mk 1 "Alice" "Alice" "1-0" None None 1200 1200 1200 1200 16 (-16)).
  vm_compute. repeat split; try reflexivity. discriminate.
Qed.

Lemma head_to_head_symmetric_witness :
  let st := after_prefix pow_unused exp_unused 32 1200 ["Alice - Bob 1-0"] 1 in
  exists pO t',
    players st !! "Bob" = Some pO /\
    Player.opponents pO !! "Alice" = Some t' /\
    Tally.games t' = 1 /\ Tally.wins t' = 0 /\
    Tally.losses t' = 1 /\ Tally.draws t' = 0.
Proof.
  apply (head_to_head_symmetric pow_unused exp_unused 32 1200
           ["Alice - Bob 1-0"] 1 "Alice" "Bob"
           (player_of (after_prefix pow_unused exp_unused 32 1200
                         ["Alice - Bob 1-0"] 1) "Alice")
           (Tally.mk 1 1 0 0)).
  - vm_compute. reflexivity.
  - vm_compute. reflexivity.
Defined.

Lemma biggest_lists_bounded_sorted_witness :
  let p := player_of (after_prefix pow_one exp_one 32 1200
                        ["Alice - Bob 1-0"; "Bob - Alice 1-0"] 2) "Bob" in
  (length (Player.biggest_wins p) <= 5)%nat
  /\ StronglySorted notable_before (Player.biggest_wins p)
  /\ (length (Player.biggest_upsets p) <= 5)%nat
  /\ StronglySorted notable_before (Player.biggest_upsets p).
Proof.
  apply (biggest_lists_bounded_sorted pow_one exp_one 32 1200
           ["Alice - Bob 1-0"; "Bob - Alice 1-0"] 2 "Bob").
  vm_compute. reflexivity.
Defined.

Lemma elo_update_from_pregame_ratings_witness :
  let r := process_game pow_unused exp_unused "Alice - Bob 1-0" 1 default_system in
  exists rec, r.2 = Ok (Some rec)
    /\ Game.white_change rec = 16 /\ Game.black_change rec = -16
    /\ Player.rating (player_of r.1 "Alice") = 1200 + Game.white_change rec
    /\ Player.rating (player_of r.1 "Bob") = 1200 + Game.black_change rec.
Proof.
  pose (rec := Game.mk 1 "Alice" "Bob" "1-0" None None 1200 1200 1216 1184 16 (-16)).
  pose proof (elo_update_from_pregame_ratings pow_unused exp_unused
    default_system "Alice - Bob 1-0" 1 "Alice" "Bob" "1-0" None 1 0
    (process_game pow_unused exp_unused "Alice - Bob 1-0" 1 default_system).1
    rec
    ltac:(vm_compute; reflexivity) ltac:(vm_compute; reflexivity)
    ltac:(reflexivity) ltac:(vm_compute; reflexivity))
    as (_ & _ & _ & _ & Hne & _).
  destruct (Hne ltac:(discriminate)) as [Hw Hb].
  exists rec. split; [vm_compute; reflexivity|].
  split; [reflexivity|]. split; [reflexivity|]. split; [exact Hw|exact Hb].
Defined.

(** C2 as stated fails for a game of a player against herself: the record
    says white gained 16, and her rating is what it was. *)
Lemma elo_self_play_counterexample :
  let r := process_game pow_unused exp_unused "Alice - Alice 1-0" 1 default_system in
  exists rec, r.2 = Ok (Some rec)
    /\ Game.white_player rec = "Alice" /\ Game.white_change rec = 16
    /\ Game.white_rating_before rec = 1200
    /\ Player.rating (player_of r.1 "Alice") = 1200
    /\ Player.rating (player_of r.1 "Alice")
       <> Game.white_rating_before rec + Game.white_change rec.
Proof.
  exists (Game.mk 1 "Alice" "Alice" "1-0" None None 1200 1200 1200 1200 16 (-16)).
  vm_compute. repeat split; try reflexivity. discriminate.
Qed.

Lemma uscf_update_from_pregame_state_witness :
  let r := process_game pow_unused exp_unused "Alice - Bob 1-0" 1 default_system in
  get_uscf_k_factor (player_before default_system "Alice") = 40
  /\ Player.uscf_rating (player_of r.1 "Alice") = 1220
  /\ Player.uscf_games (player_of r.1 "Alice") = 1
  /\ Player.uscf_rating (player_of r.1 "Bob") = 1180
  /\ Player.uscf_games (player_of r.1 "Bob") = 1.
Proof.
  pose (rec := Game.mk 1 "Alice" "Bob" "1-0" None None 1200 1200 1216 1184 16 (-16)).
  pose proof (uscf_update_from_pregame_state pow_unused exp_unused
    default_system "Alice - Bob 1-0" 1 "Alice" "Bob" "1-0" None 1 0
    (process_game pow_unused exp_unused "Alice - Bob 1-0" 1 default_system).1
    rec
    ltac:(vm_compute; reflexivity) ltac:(vm_compute; reflexivity)
    ltac:(vm_compute; reflexivity))
    as (Hk & cw & cb & Hcw & Hcb & Hne & _).
  destruct (Hne ltac:(discriminate)) as (H1 & H2 & H3 & H4).
  vm_compute in Hcw, Hcb. injection Hcw as <-. injection Hcb as <-.
  split; [vm_compute; reflexivity|].
  split; [exact H1|]. split; [exact H2|]. split; [exact H3|exact H4].
Defined.

(** C3 as stated fails for a game of a player against herself: her USCF
    game counter has increased by 2. *)
Lemma uscf_self_play_counterexample :
  let r := process_game pow_unused exp_unused "Alice - Alice 1-0" 1 default_system in
  exists rec, r.2 = Ok (Some rec)
    /\ Player.uscf_games (player_before default_system "Alice") = 0
    /\ Player.uscf_games (player_of r.1 "Alice") = 2.
Proof.
  exists (Game.mk 1 "Alice" "Alice" "1-0" None None 1200 1200 1200 1200 16 (-16)).
  vm_compute. repeat split; reflexivity.
Qed.

Lemma format_date_of_digits_witness :
  format_date "20250101" = Ok (Some "Jan 1, 2025")
  /\ format_date "20251301" = Ok None.
Proof.
  destruct (format_date_of_digits "20250101" eq_refl eq_refl) as (H1 & _ & _).
  destruct (format_date_of_digits "20251301" eq_refl eq_refl) as (_ & H2 & _).
  split; [exact (H1 ltac:(vm_compute; split; discriminate))
         |exact (H2 ltac:(vm_compute; discriminate))].
Defined.

(** C4 as stated fails on a day that is out of range: the date is
    formatted, not dropped. *)
Lemma format_date_day_counterexample :
  format_date "20250132" = Ok (Some "Jan 32, 2025")
  /\ format_date "20250200" = Ok (Some "Feb 0, 2025").
Proof. split; vm_compute; reflexivity. Qed.

Lemma elo_deltas_cancel_witness :
  let r := process_game pow_unused exp_unused "Alice - Bob 0.5-0.5" 1 default_system in
  exists rec, r.2 = Ok (Some rec)
    /\ Game.white_change rec + Game.black_change rec = 0.
Proof.
  pose (rec := Game.mk 1 "Alice" "Bob" "0.5-0.5" None None 1200 1200 1200 1200 0 0).
  pose proof (elo_deltas_cancel pow_unused exp_unused default_system
    "Alice - Bob 0.5-0.5" 1
    (process_game pow_unused exp_unused "Alice - Bob 0.5-0.5" 1 default_system).1
    rec ltac:(reflexivity) ltac:(vm_compute; reflexivity)) as [Hfresh Heq].
  destruct (Hfresh ltac:(vm_compute; reflexivity) ltac:(vm_compute; reflexivity))
    as [_ Hr].
  exists rec. split; [vm_compute; reflexivity|exact (Heq Hr)].
Defined.

Lemma glicko_volatility_capped_witness :
  let r := process_game pow_unused exp_unused "Alice - Bob 1-0" 1
             (after_prefix pow_unused exp_unused 32 1200 [] 0) in
  capped (Player.glicko_volatility (player_of r.1 "Alice"))
  /\ capped (Player.glicko_volatility (player_of r.1 "Bob")).
Proof.
  pose (rec := Game.mk 1 "Alice" "Bob" "1-0" None None 1200 1200 1216 1184 16 (-16)).
  destruct (glicko_volatility_capped pow_unused exp_unused 32 1200 [] 0
    "Alice - Bob 1-0" 1
    (process_game pow_unused exp_unused "Alice - Bob 1-0" 1
       (after_prefix pow_unused exp_unused 32 1200 [] 0)).1
    rec "Alice" "Bob" "1-0" None 1 0
    ltac:(vm_compute; reflexivity) ltac:(vm_compute; reflexivity)
    ltac:(vm_compute; reflexivity))
    as (sw & sb & _ & _ & _ & _ & Hall).
  split; [apply (Hall "Alice")|apply (Hall "Bob")]; vm_compute; reflexivity.
Defined.

(** ** Closed instances of the further properties *)


















